(** * CORD-19 search client: controllers, section decoder and formatters

    A shallow embedding of the client-side TypeScript sources

      - [components/DocumentViewer.tsx]  (formatTextWithSections, formatAbstract)
      - [components/SearchBar.tsx]       (the debounced autocomplete effect)
      - [App.tsx]                        (handleSearch, handleSelectDocument,
                                          handleBackToResults)

    JavaScript strings are sequences of UTF-16 code units; they are modelled
    as lists of code units so that [length], [trim], [substring] and the
    regular-expression classes agree with the language definition. *)

From Stdlib Require Import String Ascii.
From Stdlib Require Import List NArith ZArith Arith Lia Bool.
Open Scope list_scope. Open Scope nat_scope.
Import ListNotations.

Set Implicit Arguments.

(* ================================================================== *)
(** * JavaScript strings *)
(* ================================================================== *)

Module JS.

Definition char := N.
Definition jsstring := list char.

(** An ASCII literal of the source text as a code-unit sequence. *)
Definition lit (s : string) : jsstring :=
  map N_of_ascii (list_ascii_of_string s).

Definition LF : char := 10%N.
Definition SPACE : char := 32%N.

(** ECMAScript [LineTerminator]: LF, CR, LS, PS.  The regular expression
    atom [.] (without the [s] flag) matches every code unit but these. *)
Definition isLineTerminator (c : char) : bool :=
  ((c =? 10) || (c =? 13) || (c =? 0x2028) || (c =? 0x2029))%N.

(** ECMAScript [WhiteSpace]: TAB, VT, FF, SP, NBSP, ZWNBSP and the
    Unicode space separators. *)
Definition isWhiteSpace (c : char) : bool :=
  ((c =? 9) || (c =? 11) || (c =? 12) || (c =? 32) || (c =? 0xA0)
   || (c =? 0x1680) || ((0x2000 <=? c) && (c <=? 0x200A))
   || (c =? 0x202F) || (c =? 0x205F) || (c =? 0x3000) || (c =? 0xFEFF))%N.

(** What [String.prototype.trim] strips and what [\s] matches. *)
Definition isSpace (c : char) : bool :=
  isWhiteSpace c || isLineTerminator c.

(** [\w] without the [u] flag: ASCII letters, digits and underscore. *)
Definition isWordChar (c : char) : bool :=
  (((0x61 <=? c) && (c <=? 0x7A)) || ((0x41 <=? c) && (c <=? 0x5A))
   || ((0x30 <=? c) && (c <=? 0x39)) || (c =? 0x5F))%N.

Fixpoint trimStart (s : jsstring) : jsstring :=
  match s with
  | [] => []
  | c :: s' => if isSpace c then trimStart s' else s
  end.

Definition trimEnd (s : jsstring) : jsstring := rev (trimStart (rev s)).

Definition trim (s : jsstring) : jsstring := trimEnd (trimStart s).

(** Truthiness of a string value: the empty string is falsy. *)
Definition truthy (s : jsstring) : bool :=
  match s with [] => false | _ :: _ => true end.

(** Truthiness of [string | undefined]. *)
Definition truthy_opt (s : option jsstring) : bool :=
  match s with None => false | Some s => truthy s end.

Fixpoint startsWith (p s : jsstring) : bool :=
  match p, s with
  | [], _ => true
  | _ :: _, [] => false
  | a :: p', b :: s' => (a =? b)%N && startsWith p' s'
  end.

(** Strict equality [a === b] of two strings. *)
Fixpoint eqb (a b : jsstring) : bool :=
  match a, b with
  | [], [] => true
  | x :: a', y :: b' => (x =? y)%N && eqb a' b'
  | _, _ => false
  end.

(** [s.includes(needle)] *)
Fixpoint includes (needle s : jsstring) : bool :=
  startsWith needle s ||
  match s with
  | [] => false
  | _ :: s' => includes needle s'
  end.

(** [s.substring(a, b)]: both indices are clamped to the length and
    swapped when out of order. *)
Definition substring (s : jsstring) (a b : nat) : jsstring :=
  let a' := Nat.min a (length s) in
  let b' := Nat.min b (length s) in
  let lo := Nat.min a' b' in
  let hi := Nat.max a' b' in
  firstn (hi - lo) (skipn lo s).

End JS.

Import JS.

(* ================================================================== *)
(** * types.ts *)
(* ================================================================== *)

Module Types.

Section Records.

(** The JavaScript [number] of [score] and [year]; no component computes
    with either. *)
Variable number : Type.

Record SearchResult : Type := mkSearchResult {
  doc_id : jsstring;
  score : number;
  title : option jsstring;
  authors : option jsstring;
  journal : option jsstring;
  publish_time : option jsstring;
  abstract : option jsstring
}.

Record Reference : Type := mkReference {
  ref_id : jsstring;
  bibref_id : jsstring;
  ref_title : option jsstring;
  ref_authors : option jsstring;
  year : option number;
  venue : option jsstring;
  volume : option jsstring;
  pages : option jsstring;
  issn : option jsstring
}.

Record Metadata : Type := mkMetadata {
  meta_title : option jsstring;
  meta_authors : option jsstring;
  meta_journal : option jsstring;
  meta_publish_time : option jsstring
}.

Record Document : Type := mkDocument {
  paper_id : jsstring;
  metadata : Metadata;
  doc_abstract : option jsstring;
  sections : option jsstring;
  text : option jsstring;
  references : option (list Reference)
}.

End Records.

End Types.

(* ================================================================== *)
(** * DocumentViewer.tsx: the section decoder *)
(* ================================================================== *)

Module DocumentViewer.

(** The elements pushed to [parts]: an [<h3>] is a heading, a [<div>] a
    paragraph.  React keys and class names are presentation only. *)
Inductive Segment : Type :=
| Heading (t : jsstring)
| Paragraph (t : jsstring).

Definition segText (g : Segment) : jsstring :=
  match g with Heading t => t | Paragraph t => t end.

Definition SECTION_START : jsstring := lit "##SECTION_START##".
Definition SECTION_END : jsstring := lit "##SECTION_END##".

(** ** [/##SECTION_START##(.*?)##SECTION_END##/g] *)

(** The tail [(.*?)##SECTION_END##] of the pattern, run on the text that
    follows the opening token.  The lazy star first tries to finish with
    the closing token and only then consumes one more code unit, which
    must not be a line terminator.  The result is the capture group. *)
Fixpoint lazyCapture (r : jsstring) {struct r} : option jsstring :=
  if startsWith SECTION_END r then Some []
  else match r with
       | [] => None
       | c :: r' =>
           if isLineTerminator c then None
           else option_map (cons c) (lazyCapture r')
       end.

(** The whole pattern anchored at the head of [s]. *)
Definition matchHere (s : jsstring) : option jsstring :=
  if startsWith SECTION_START s
  then lazyCapture (skipn (length SECTION_START) s)
  else None.

Record RegExpMatch : Type := mkMatch {
  index : nat;          (* match.index *)
  group1 : jsstring;    (* match[1] *)
  lastIndex : nat       (* sectionPattern.lastIndex after the match *)
}.

(** Leftmost match in the suffix [s] of the text that starts at
    position [i]. *)
Fixpoint execAt (s : jsstring) (i : nat) {struct s} : option RegExpMatch :=
  match matchHere s with
  | Some cap =>
      Some (mkMatch i cap
              (i + length SECTION_START + length cap + length SECTION_END))
  | None =>
      match s with
      | [] => None
      | _ :: s' => execAt s' (S i)
      end
  end.

(** [sectionPattern.exec(text)] with the pattern's [lastIndex] at [from]. *)
Definition exec (text : jsstring) (from : nat) : option RegExpMatch :=
  if from <=? length text then execAt (skipn from text) from else None.

Record SectionMarker : Type := mkSection {
  name : jsstring;
  startIndex : nat;
  endIndex : nat
}.

(** First pass: [while ((match = sectionPattern.exec(text)) !== null)].
    Every match is at least 32 code units long, so [lastIndex] strictly
    grows; [fuel] bounds the number of iterations. *)
Fixpoint collectSections (fuel : nat) (text : jsstring) (from : nat)
  : list SectionMarker :=
  match fuel with
  | 0 => []
  | S fuel' =>
      match exec text from with
      | None => []
      | Some m =>
          mkSection (trim (group1 m)) (index m) (lastIndex m)
            :: collectSections fuel' text (lastIndex m)
      end
  end.

Definition findSections (text : jsstring) : list SectionMarker :=
  collectSections (S (length text)) text 0.

Definition heading (t : jsstring) : list Segment :=
  if truthy t then [Heading t] else [].

Definition paragraph (t : jsstring) : list Segment :=
  if truthy t then [Paragraph t] else [].

(** Body of the second pass for loop index [i]. *)
Definition sectionParts (text : jsstring) (sections : list SectionMarker)
           (i : nat) : list Segment :=
  match nth_error sections i with
  | None => []
  | Some section =>
      let nextSection := nth_error sections (i + 1) in
      let contentStart := endIndex section in
      let contentEnd :=
        match nextSection with
        | Some next => startIndex next
        | None => length text
        end in
      let content := trim (substring text contentStart contentEnd) in
      heading (name section) ++ paragraph content
  end.

(** Second pass: [for (let i = 0; i < sections.length; i++)]. *)
Definition secondPass (text : jsstring) (sections : list SectionMarker)
  : list Segment :=
  flat_map (sectionParts text sections) (seq 0 (length sections)).

(** [parts.unshift(...)] of the text before the first section. *)
Definition textBefore (text : jsstring) (sections : list SectionMarker)
  : list Segment :=
  match sections with
  | [] => []
  | first :: _ =>
      if 0 <? startIndex first
      then paragraph (trim (substring text 0 (startIndex first)))
      else []
  end.

Definition formatTextWithSections (text : option jsstring) : list Segment :=
  match text with
  | None => []
  | Some text =>
      if negb (truthy text) then []
      else if negb (includes SECTION_START text) then [Paragraph text]
      else
        let sections := findSections text in
        let parts := textBefore text sections ++ secondPass text sections in
        match parts with
        | [] => [Paragraph text]
        | _ :: _ => parts
        end
  end.

(** ** [formatAbstract] *)

(** The alternatives of
    [/\b(background|methods|results|conclusion|introduction)\b/gi],
    in pattern order. *)
Definition keywords : list jsstring :=
  map lit ["background"; "methods"; "results"; "conclusion";
           "introduction"]%string.

(** Case folding of the [i] flag (no [u] flag): a code unit is compared
    through its upper-case form.  Only ASCII letters fold onto ASCII
    letters, and the pattern is ASCII, so folding a-z is all that is
    observable here. *)
Definition canonicalize (c : char) : char :=
  if ((0x61 <=? c) && (c <=? 0x7A))%N then (c - 32)%N else c.

Fixpoint startsWithIgnoreCase (p s : jsstring) : bool :=
  match p, s with
  | [], _ => true
  | _ :: _, [] => false
  | a :: p', b :: s' =>
      (canonicalize a =? canonicalize b)%N && startsWithIgnoreCase p' s'
  end.

Definition isWordAt (c : option char) : bool :=
  match c with None => false | Some c => isWordChar c end.

(** The assertion [\b] between two neighbouring positions; a missing
    neighbour (start or end of input) counts as a non-word character. *)
Definition wordBoundary (before after : option char) : bool :=
  xorb (isWordAt before) (isWordAt after).

(** The group and the closing [\b], tried alternative by alternative;
    the result is the length of the match. *)
Fixpoint firstAlternative (alts : list jsstring) (s : jsstring)
  : option nat :=
  match alts with
  | [] => None
  | kw :: alts' =>
      if startsWithIgnoreCase kw s
         && wordBoundary (nth_error s (length kw - 1))
                         (nth_error s (length kw))
      then Some (length kw)
      else firstAlternative alts' s
  end.

(** The keyword pattern anchored at the head of [s], the code unit
    before it being [prev]. *)
Definition keywordAt (prev : option char) (s : jsstring) : option nat :=
  if wordBoundary prev (hd_error s)
  then firstAlternative keywords s
  else None.

(** [.replace(/\b(...)\b/gi, '\n\n$1')]: left to right, every match is
    copied behind two line feeds; [skip] counts the code units of the
    current match that are still to be copied, during which no new match
    may start. *)
Fixpoint insertBreaks (prev : option char) (skip : nat) (s : jsstring)
  : jsstring :=
  match s with
  | [] => []
  | c :: s' =>
      match skip with
      | S k => c :: insertBreaks (Some c) k s'
      | 0 =>
          match keywordAt prev s with
          | Some len => LF :: LF :: c :: insertBreaks (Some c) (len - 1) s'
          | None => c :: insertBreaks (Some c) 0 s'
          end
      end
  end.

(** [.replace(/\s+/g, ' ')]: every maximal run of white space becomes one
    space; [inRun] tells that the previous code unit was white space. *)
Fixpoint collapseSpaces (inRun : bool) (s : jsstring) : jsstring :=
  match s with
  | [] => []
  | c :: s' =>
      if isSpace c
      then (if inRun then [] else [SPACE]) ++ collapseSpaces true s'
      else c :: collapseSpaces false s'
  end.

Definition formatAbstract (abstract : option jsstring) : jsstring :=
  match abstract with
  | None => []
  | Some abstract =>
      if negb (truthy abstract) then []
      else trim (collapseSpaces false (insertBreaks None 0 abstract))
  end.

(** ** [formatTextForDisplay] *)

(** The class [[ \t]]. *)
Definition isBlank (c : char) : bool := ((c =? 32) || (c =? 9))%N.

(** The class [[.!?]]. *)
Definition isSentenceEnd (c : char) : bool :=
  ((c =? 46) || (c =? 33) || (c =? 63))%N.

(** The class [[A-Z]]. *)
Definition isUpper (c : char) : bool := ((0x41 <=? c) && (c <=? 0x5A))%N.

Definition isLF (c : char) : bool := (c =? LF)%N.

(** Length of the longest prefix of [s] inside the class [p]: what a
    greedy [p{n,}] consumes at the head of [s]. *)
Fixpoint runLength (p : char -> bool) (s : jsstring) : nat :=
  match s with
  | [] => 0
  | c :: s' => if p c then S (runLength p s') else 0
  end.

(** [.replace(/p{min,}/g, repl)] for a class [p] and [min >= 1]: left to
    right, every maximal run of at least [min] code units of the class is
    replaced by [repl]; [skip] counts the code units of the current match
    that are still to be dropped. *)
Fixpoint replaceRuns (p : char -> bool) (min : nat) (repl : jsstring)
         (skip : nat) (s : jsstring) : jsstring :=
  match s with
  | [] => []
  | c :: s' =>
      match skip with
      | S k => replaceRuns p min repl k s'
      | 0 =>
          if min <=? runLength p s
          then repl ++ replaceRuns p min repl (runLength p s - 1) s'
          else c :: replaceRuns p min repl 0 s'
      end
  end.

(** The tail [\s+([A-Z])] of the sentence pattern at the head of [s]: the
    greedy [\s+] takes the whole run of white space, and since a capital
    is no white space, giving some of it back cannot help.  The result is
    the length of the run. *)
Definition sentenceGap (s : jsstring) : option nat :=
  let n := runLength isSpace s in
  if (1 <=? n)
     && match nth_error s n with Some c => isUpper c | None => false end
  then Some n
  else None.

(** [.replace(/([.!?])\s+([A-Z])/g, '$1\n\n$2')]: the white space between
    the end of a sentence and a capital becomes two line feeds.  [skip]
    counts the white space of the current match still to be dropped; the
    capital that ends the match is copied as it is, and starts no match
    of its own. *)
Fixpoint breakSentences (skip : nat) (s : jsstring) : jsstring :=
  match s with
  | [] => []
  | c :: s' =>
      match skip with
      | S k => breakSentences k s'
      | 0 =>
          if isSentenceEnd c
          then match sentenceGap s' with
               | Some n => c :: LF :: LF :: breakSentences n s'
               | None => c :: breakSentences 0 s'
               end
          else c :: breakSentences 0 s'
      end
  end.

Definition formatTextForDisplay (text : option jsstring) : jsstring :=
  match text with
  | None => []
  | Some text =>
      if negb (truthy text) then []
      else
        trim
          (replaceRuns isLF 4 [LF; LF; LF] 0
             (breakSentences 0
                (replaceRuns isBlank 2 [SPACE] 0 text)))
  end.

(** ** [formatAuthors] *)

Definition COMMA : char := 44%N.

(** [s.split(',')]: the pieces between the separators, at least one. *)
Fixpoint split (sep : char) (s : jsstring) : list jsstring :=
  match s with
  | [] => [[]]
  | c :: s' =>
      if (c =? sep)%N then [] :: split sep s'
      else match split sep s' with
           | piece :: pieces => (c :: piece) :: pieces
           | [] => [[c]]
           end
  end.

(** [pieces.join(sep)] *)
Fixpoint join (sep : jsstring) (pieces : list jsstring) : jsstring :=
  match pieces with
  | [] => []
  | [piece] => piece
  | piece :: pieces' => piece ++ sep ++ join sep pieces'
  end.

Definition formatAuthors (authors : option jsstring) : jsstring :=
  match authors with
  | None => []
  | Some authors =>
      if negb (truthy authors) then []
      else join (lit ", ") (map trim (split COMMA authors))
  end.

(** ** The component *)

(** [a || b] on strings where [a] may be undefined. *)
Definition orElse (a : option jsstring) (b : jsstring) : jsstring :=
  match a with
  | Some a' => if truthy a' then a' else b
  | None => b
  end.

(** [s && <element showing s>]: the element is there when [s] is a
    non-empty string. *)
Definition whenTruthy (s : option jsstring) : option jsstring :=
  match s with
  | Some s' => if truthy s' then Some s' else None
  | None => None
  end.

Section Component.

Variable number : Type.

(** What the component puts on the page, panel by panel; [None] or
    [false] is a panel left out. *)
Record DocumentView : Type := mkDocumentView {
  view_title : jsstring;
  view_authors : option jsstring;
  view_journal : option jsstring;
  view_published : option jsstring;
  view_paper_id : jsstring;
  view_abstract : option jsstring;
  view_sections : option jsstring;
  view_fullText : option (list Segment);
  view_references : option (list (Types.Reference number));
  view_unavailable : bool
}.

Definition DocumentViewer (document : Types.Document number)
  : DocumentView :=
  let metadata := Types.metadata document in
  let abstract := Types.doc_abstract document in
  let sections := Types.sections document in
  let text := Types.text document in
  let references := Types.references document in
  let formattedAbstract := formatAbstract abstract in
  let formattedText := formatTextForDisplay text in
  let formattedSections := formatTextForDisplay sections in
  mkDocumentView
    (orElse (Types.meta_title metadata) (lit "Untitled Document"))
    (option_map (fun a => formatAuthors (Some a))
                (whenTruthy (Types.meta_authors metadata)))
    (whenTruthy (Types.meta_journal metadata))
    (whenTruthy (Types.meta_publish_time metadata))
    (Types.paper_id document)
    (whenTruthy (Some formattedAbstract))
    (whenTruthy (Some formattedSections))
    (* (formattedText || text) && formatTextWithSections(text || formattedText) *)
    (if truthy formattedText || truthy_opt text
     then Some (formatTextWithSections (Some (orElse text formattedText)))
     else None)
    (* references && references.length > 0 *)
    (match references with
     | Some (r :: rs) => Some (r :: rs)
     | _ => None
     end)
    (* !formattedText && !text && !references: an array, even empty, is
       truthy *)
    (negb (truthy formattedText) && negb (truthy_opt text)
     && match references with Some _ => false | None => true end).

End Component.

End DocumentViewer.

(* ================================================================== *)
(** * SearchBar.tsx: the suggestion controller *)
(* ================================================================== *)

Module SearchBar.

(** Component state, the browser's pending debounce timer and the
    autocomplete calls whose promise has not settled yet. *)
Record State : Type := mkState {
  query : jsstring;
  suggestions : list jsstring;
  showSuggestions : bool;
  isLoadingSuggestions : bool;
  (** the armed [window.setTimeout] callback, with the [query] its
      closure captured *)
  debounceTimer : option jsstring;
  (** prefixes of the calls in flight, oldest first *)
  inflight : list jsstring
}.

(** What the component asks of its collaborators. *)
Inductive Action : Type :=
| Autocomplete (prefix : jsstring) (limit : nat)   (* onAutocomplete *)
| OnSearch (q : jsstring).                         (* onSearch *)

Inductive Outcome : Type :=
| Resolved (results : list jsstring)
| Rejected.

Inductive Event : Type :=
| InputChange (value : jsstring)      (* handleInputChange *)
| TimerFires                          (* the 300 ms timer elapses *)
| Response (i : nat) (o : Outcome)    (* the i-th call in flight settles *)
| Submit                              (* handleSubmit *)
| SuggestionClick (s : jsstring)      (* handleSuggestionClick *)
| ClickOutside.                       (* handleClickOutside *)

Definition initial (initialQuery : jsstring) : State :=
  mkState initialQuery [] false false None [].

(** [clearTimeout(debounceTimerRef.current)] *)
Definition clearTimer (s : State) : State :=
  mkState (query s) (suggestions s) (showSuggestions s)
          (isLoadingSuggestions s) None (inflight s).

(** The body of the effect on [[query, onAutocomplete]], run after the
    cleanup of the previous run. *)
Definition queryEffect (s : State) : State :=
  let s := clearTimer s in
  if length (trim (query s)) <? 2
  then mkState (query s) [] false (isLoadingSuggestions s)
               (debounceTimer s) (inflight s)
  else mkState (query s) (suggestions s) (showSuggestions s) true
               (Some (query s)) (inflight s).

(** [setQuery(v)]: an unchanged value re-runs nothing; a changed one
    re-renders, which runs the effect's cleanup and then the effect. *)
Definition setQuery (v : jsstring) (s : State) : State :=
  if JS.eqb v (query s) then s
  else queryEffect
         (clearTimer
            (mkState v (suggestions s) (showSuggestions s)
                     (isLoadingSuggestions s) (debounceTimer s)
                     (inflight s))).

Definition hide (s : State) : State :=
  mkState (query s) (suggestions s) false (isLoadingSuggestions s)
          (debounceTimer s) (inflight s).

(** The timer callback up to its [await]. *)
Definition timerFires (s : State) : State * list Action :=
  match debounceTimer s with
  | None => (s, [])
  | Some q =>
      (mkState (query s) (suggestions s) (showSuggestions s)
               (isLoadingSuggestions s) None (inflight s ++ [trim q]),
       [Autocomplete (trim q) 8])
  end.

Fixpoint removeNth {A : Type} (i : nat) (l : list A) : list A :=
  match l, i with
  | [], _ => []
  | _ :: l', 0 => l'
  | x :: l', S i' => x :: removeNth i' l'
  end.

(** The timer callback after its [await]: [try], [catch], [finally]. *)
Definition settle (i : nat) (o : Outcome) (s : State) : State :=
  match nth_error (inflight s) i with
  | None => s
  | Some _ =>
      match o with
      | Resolved results =>
          mkState (query s) results true false
                  (debounceTimer s) (removeNth i (inflight s))
      | Rejected =>
          mkState (query s) [] (showSuggestions s) false
                  (debounceTimer s) (removeNth i (inflight s))
      end
  end.

Definition step (e : Event) (s : State) : State * list Action :=
  match e with
  | InputChange v => (setQuery v s, [])
  | TimerFires => timerFires s
  | Response i o => (settle i o s, [])
  | Submit => (hide s, [OnSearch (trim (query s))])
  | SuggestionClick sug => (setQuery sug (hide s), [OnSearch sug])
  | ClickOutside => (hide s, [])
  end.

Fixpoint run (es : list Event) (s : State) : State * list Action :=
  match es with
  | [] => (s, [])
  | e :: es' =>
      let (s1, a1) := step e s in
      let (s2, a2) := run es' s1 in
      (s2, a1 ++ a2)
  end.

(** The component right after mounting: the effect has run once. *)
Definition mount (initialQuery : jsstring) : State :=
  queryEffect (initial initialQuery).

(** Invariant of the debounce: an armed timer belongs to the current
    input. *)
Definition TimerCurrent (s : State) : Prop :=
  forall q, debounceTimer s = Some q -> q = query s.

(** The suggestion list is on the page when
    [showSuggestions && suggestions.length > 0]. *)
Definition panelVisible (s : State) : bool :=
  showSuggestions s && (0 <? length (suggestions s)).

(** Invariant of the debounce: an armed timer belongs to the current
    input, whose trimmed length is at least 2. *)
Definition TimerArmedWell (s : State) : Prop :=
  forall q, debounceTimer s = Some q ->
            q = query s /\ 2 <= length (trim q).

(** What every autocomplete call looks like. *)
Definition WellFormedAction (a : Action) : Prop :=
  match a with
  | Autocomplete prefix limit =>
      limit = 8 /\ 2 <= length prefix /\ trim prefix = prefix
  | OnSearch _ => True
  end.

(** The events that call [setQuery]. *)
Definition changesInput (e : Event) : bool :=
  match e with
  | InputChange _ | SuggestionClick _ => true
  | _ => false
  end.

End SearchBar.

(* ================================================================== *)
(** * App.tsx: search session and document session *)
(* ================================================================== *)

Module App.

(** Shape of a rejected axios promise as far as the handlers look at
    it: [error.response?.status] and [error.message]. *)
Record ApiError : Type := mkError {
  status : option Z;
  message : option jsstring
}.

Section Controllers.

(** [SearchResult] and [Document] of [types.ts]; the controllers only
    store and pass them on. *)
Variable SearchResult : Type.
Variable Document : Type.

(** The body of a search response; a field is [None] when the backend
    left it out. *)
Record SearchResponse : Type := mkResponse {
  resp_results : option (list SearchResult);
  resp_total : option Z;
  resp_query : option jsstring
}.

Record State : Type := mkState {
  query : jsstring;
  results : list SearchResult;
  loading : bool;
  selectedDoc : option Document;
  showDocument : bool;
  totalResults : Z
}.

Inductive Effect : Type :=
| SearchCall (q : jsstring) (limit : nat)     (* searchAPI *)
| DocumentCall (docId : jsstring)             (* getDocumentAPI *)
| Alert (msg : jsstring).                     (* window.alert *)

Definition initial : State := mkState [] [] false None false 0%Z.

(** Which panel the render shows: [showDocument && selectedDoc]. *)
Definition viewingDocument (s : State) : bool :=
  showDocument s && match selectedDoc s with Some _ => true | None => false end.

Definition setLoading (b : bool) (s : State) : State :=
  mkState (query s) (results s) b (selectedDoc s) (showDocument s)
          (totalResults s).

Definition setQuery (q : jsstring) (s : State) : State :=
  mkState q (results s) (loading s) (selectedDoc s) (showDocument s)
          (totalResults s).

Definition setResults (r : list SearchResult) (s : State) : State :=
  mkState (query s) r (loading s) (selectedDoc s) (showDocument s)
          (totalResults s).

Definition setTotalResults (n : Z) (s : State) : State :=
  mkState (query s) (results s) (loading s) (selectedDoc s)
          (showDocument s) n.

Definition setSelectedDoc (d : option Document) (s : State) : State :=
  mkState (query s) (results s) (loading s) d (showDocument s)
          (totalResults s).

Definition setShowDocument (b : bool) (s : State) : State :=
  mkState (query s) (results s) (loading s) (selectedDoc s) b
          (totalResults s).

Definition notReadyMessage : jsstring :=
  lit "Search engine is not ready. Please check if the backend server is running and initialized.".

Definition notFoundMessage : jsstring :=
  lit "Backend API not found. Please ensure the backend server is running on port 8000.".

(** [`Search failed: ${error.message || 'Unknown error'}`] *)
Definition genericMessage (error : ApiError) : jsstring :=
  lit "Search failed: " ++
  (if truthy_opt (message error)
   then match message error with Some m => m | None => [] end
   else lit "Unknown error").

Definition loadFailedMessage : jsstring :=
  lit "Error loading document. Please try again.".

(** [error.response?.status === code] *)
Definition statusIs (error : ApiError) (code : Z) : bool :=
  match status error with
  | Some st => (st =? code)%Z
  | None => false
  end.

Definition searchErrorMessage (error : ApiError) : jsstring :=
  if statusIs error 503 then notReadyMessage
  else if statusIs error 404 then notFoundMessage
  else genericMessage error.

(** [handleSearch] up to its [await], or to its early [return]. *)
Definition handleSearch_begin (searchQuery : jsstring) (s : State)
  : State * list Effect :=
  if negb (truthy (trim searchQuery))
  then (setQuery [] (setTotalResults 0 (setResults [] s)), [])
  else (setQuery (trim searchQuery) (setLoading true s),
        [SearchCall (trim searchQuery) 20]).

(** [handleSearch] after its [await]: [try], [catch], [finally]. *)
Definition handleSearch_settle (searchQuery : jsstring)
           (outcome : SearchResponse + ApiError) (s : State)
  : State * list Effect :=
  match outcome with
  | inl response =>
      let s := setResults
                 (match resp_results response with
                  | Some r => r | None => [] end) s in
      let s := setTotalResults
                 (match resp_total response with
                  | Some n => n | None => 0%Z end) s in
      let s := setQuery
                 (if truthy_opt (resp_query response)
                  then match resp_query response with
                       | Some q => q | None => [] end
                  else trim searchQuery) s in
      (setLoading false s, [])
  | inr error =>
      let s := setResults [] s in
      let s := setTotalResults 0 s in
      (setLoading false s, [Alert (searchErrorMessage error)])
  end.

(** [handleSelectDocument] up to its [await]. *)
Definition handleSelectDocument_begin (docId : jsstring) (s : State)
  : State * list Effect :=
  (setLoading true s, [DocumentCall docId]).

(** [handleSelectDocument] after its [await]. *)
Definition handleSelectDocument_settle
           (outcome : Document + ApiError) (s : State)
  : State * list Effect :=
  match outcome with
  | inl doc =>
      (setLoading false (setShowDocument true (setSelectedDoc (Some doc) s)),
       [])
  | inr _ =>
      (setLoading false s, [Alert loadFailedMessage])
  end.

Definition handleBackToResults (s : State) : State :=
  setSelectedDoc None (setShowDocument false s).

(** *** Interleaved executions *)

(** A handler suspended at its [await]. *)
Inductive Pending : Type :=
| PendingSearch (searchQuery : jsstring)
| PendingDocument (docId : jsstring).

Record World : Type := mkWorld {
  ui : State;
  pending : list Pending;     (* oldest first *)
  effects : list Effect       (* oldest first *)
}.

Inductive Event : Type :=
| Search (searchQuery : jsstring)
| SelectDocument (docId : jsstring)
| BackToResults
| SearchSettles (i : nat) (outcome : SearchResponse + ApiError)
| DocumentSettles (i : nat) (outcome : Document + ApiError).

Definition start : World := mkWorld initial [] [].

Definition isSearchCall (e : Effect) : bool :=
  match e with SearchCall _ _ => true | _ => false end.

Definition step (e : Event) (w : World) : World :=
  match e with
  | Search q =>
      let (s, out) := handleSearch_begin q (ui w) in
      mkWorld s
              (pending w ++
               (if existsb isSearchCall out then [PendingSearch q] else []))
              (effects w ++ out)
  | SelectDocument docId =>
      let (s, out) := handleSelectDocument_begin docId (ui w) in
      mkWorld s (pending w ++ [PendingDocument docId]) (effects w ++ out)
  | BackToResults =>
      mkWorld (handleBackToResults (ui w)) (pending w) (effects w)
  | SearchSettles i outcome =>
      match nth_error (pending w) i with
      | Some (PendingSearch q) =>
          let (s, out) := handleSearch_settle q outcome (ui w) in
          mkWorld s (SearchBar.removeNth i (pending w)) (effects w ++ out)
      | _ => w
      end
  | DocumentSettles i outcome =>
      match nth_error (pending w) i with
      | Some (PendingDocument _) =>
          let (s, out) := handleSelectDocument_settle outcome (ui w) in
          mkWorld s (SearchBar.removeNth i (pending w)) (effects w ++ out)
      | _ => w
      end
  end.

Definition run (es : list Event) (w : World) : World :=
  fold_left (fun w e => step e w) es w.

(** *** Invariants of the executions *)

(** The two pieces of view state move together. *)
Definition ViewInSync (s : State) : Prop :=
  showDocument s = true <->
  match selectedDoc s with Some _ => True | None => False end.

(** The spinner is on only while a handler awaits. *)
Definition LoadingHasCause (w : World) : Prop :=
  loading (ui w) = true -> pending w <> [].

(** What every call to the backend looks like. *)
Definition WellFormedEffect (e : Effect) : Prop :=
  match e with
  | SearchCall q limit => limit = 20 /\ q <> [] /\ trim q = q
  | _ => True
  end.

Definition isAlert (e : Effect) : bool :=
  match e with Alert _ => true | _ => false end.

End Controllers.

Arguments Search {SearchResult Document} searchQuery.
Arguments SelectDocument {SearchResult Document} docId.
Arguments BackToResults {SearchResult Document}.
Arguments SearchSettles {SearchResult Document} i outcome.
Arguments DocumentSettles {SearchResult Document} i outcome.
Arguments initial {SearchResult Document}.
Arguments start {SearchResult Document}.

End App.

(* ================================================================== *)
(** * SearchResults.tsx and the page of App.tsx *)
(* ================================================================== *)

Module SearchResults.

Import DocumentViewer.

Section Component.

Variable number : Type.

(** One result card: the rank badge, the title with its fallback, the
    optional lines, and the identifier its click hands to
    [onSelectDocument]. *)
Record Card : Type := mkCard {
  card_rank : nat;
  card_title : jsstring;
  card_abstract : option jsstring;
  card_authors : option jsstring;
  card_journal : option jsstring;
  card_published : option jsstring;
  card_onClick : jsstring
}.

Inductive View : Type :=
| Spinner
| Prompt
| NoResults (query : jsstring)
| ResultList (totalResults : Z) (plural : bool) (query : jsstring)
             (cards : list Card).

Definition card (index : nat) (result : Types.SearchResult number) : Card :=
  mkCard (index + 1)
         (orElse (Types.title result) (lit "Untitled Document"))
         (whenTruthy (Types.abstract result))
         (whenTruthy (Types.authors result))
         (whenTruthy (Types.journal result))
         (whenTruthy (Types.publish_time result))
         (Types.doc_id result).

(** [results.map((result, index) => ...)] *)
Fixpoint mapIndexed {A B : Type} (f : nat -> A -> B) (index : nat)
         (l : list A) : list B :=
  match l with
  | [] => []
  | x :: l' => f index x :: mapIndexed f (S index) l'
  end.

Definition SearchResults (results : list (Types.SearchResult number))
           (loading : bool) (totalResults : Z) (query : jsstring) : View :=
  if loading then Spinner
  else if negb (truthy query) then Prompt
  else if (length results =? 0) && truthy query then NoResults query
  else ResultList totalResults (negb (totalResults =? 1)%Z) query
                  (mapIndexed card 0 results).

(** The lower half of the page of [App]:
    [showDocument && selectedDoc ? <DocumentViewer/> : <SearchResults/>]. *)
Inductive Page : Type :=
| DocumentPage (view : DocumentView number)
| ResultsPage (view : View).

Definition page
           (s : App.State (Types.SearchResult number) (Types.Document number))
  : Page :=
  match App.showDocument s, App.selectedDoc s with
  | true, Some doc => DocumentPage (DocumentViewer doc)
  | _, _ =>
      ResultsPage (SearchResults (App.results s) (App.loading s)
                                 (App.totalResults s) (App.query s))
  end.

End Component.

Arguments ResultsPage {number} view.

End SearchResults.

Import DocumentViewer.

(* ================================================================== *)
(** * Vocabulary of the specification *)
(* ================================================================== *)

Module Marked.

Definition AllSpace (s : jsstring) : Prop :=
  Forall (fun c => isSpace c = true) s.

(** The code units that are not white space, in order. *)
Definition stripSpace (s : jsstring) : jsstring :=
  filter (fun c => negb (isSpace c)) s.

(** The capture of a marker never holds a line terminator. *)
Definition NoLineBreak (cap : jsstring) : Prop :=
  Forall (fun c => isLineTerminator c = false) cap.

(** The closing token that ends the marker is the first one after the
    opening token. *)
Definition ClosedFirst (cap : jsstring) : Prop :=
  forall k, k < length cap ->
    startsWith SECTION_END (skipn k (cap ++ SECTION_END)) = false.

(** Some marker starts at the head of [s]. *)
Definition Matches (s : jsstring) : Prop :=
  exists cap rest,
    s = SECTION_START ++ cap ++ SECTION_END ++ rest /\ NoLineBreak cap.

(** No marker starts inside [g] when [g] is followed by [s]. *)
Definition Gap (g s : jsstring) : Prop :=
  forall p, p < length g -> ~ Matches (skipn p (g ++ s)).

(** A marked text after its leading text: each marker is given by what
    stands between its two tokens, and comes with the text that follows
    it up to the next marker. *)
Definition marker : Type := (jsstring * jsstring)%type.

Fixpoint render (ms : list marker) : jsstring :=
  match ms with
  | [] => []
  | (cap, body) :: ms' =>
      SECTION_START ++ cap ++ SECTION_END ++ body ++ render ms'
  end.

(** The markers of [render ms] are exactly those of [ms]: paired left to
    right, not overlapping, none hidden in the text between them. *)
Fixpoint WellMarked (ms : list marker) : Prop :=
  match ms with
  | [] => True
  | (cap, body) :: ms' =>
      NoLineBreak cap /\ ClosedFirst cap /\ Gap body (render ms')
      /\ WellMarked ms'
  end.

(** Decidable forms, for concrete texts. *)
Definition noLineBreakb (cap : jsstring) : bool :=
  forallb (fun c => negb (isLineTerminator c)) cap.

Definition closedFirstb (cap : jsstring) : bool :=
  forallb (fun k => negb (startsWith SECTION_END (skipn k (cap ++ SECTION_END))))
          (seq 0 (length cap)).

Definition gapb (g s : jsstring) : bool :=
  forallb (fun p => match matchHere (skipn p (g ++ s)) with
                    | None => true
                    | Some _ => false
                    end)
          (seq 0 (length g)).

Fixpoint wellMarkedb (ms : list marker) : bool :=
  match ms with
  | [] => true
  | (cap, body) :: ms' =>
      noLineBreakb cap && closedFirstb cap && gapb body (render ms')
      && wellMarkedb ms'
  end.

(** The decoding as the specification words it: per marker, a Heading
    with its name unless empty, then a Paragraph with the trimmed text up
    to the next marker unless empty; before all of them a Paragraph with
    the trimmed leading text unless empty.  The name of a marker is what
    stands between its tokens, trimmed. *)
Definition specMarker (m : marker) : list Segment :=
  (match trim (fst m) with
   | [] => []
   | _ :: _ => [Heading (trim (fst m))]
   end) ++
  (match trim (snd m) with
   | [] => []
   | _ :: _ => [Paragraph (trim (snd m))]
   end).

Definition specDecode (before : jsstring) (ms : list marker) : list Segment :=
  (match trim before with
   | [] => []
   | _ :: _ => [Paragraph (trim before)]
   end) ++ flat_map specMarker ms.

(** The text of a marked string outside the marker tokens. *)
Definition unmarked (before : jsstring) (ms : list marker) : jsstring :=
  before ++ flat_map (fun m => fst m ++ snd m) ms.

(** The section list the first pass builds for [render ms] placed at
    offset [off] of the text. *)
Fixpoint sectionsOf (off : nat) (ms : list marker) : list SectionMarker :=
  match ms with
  | [] => []
  | (cap, body) :: ms' =>
      mkSection (trim cap) off (off + 17 + length cap + 15)
        :: sectionsOf (off + 17 + length cap + 15 + length body) ms'
  end.

(** The second pass written by recursion on the section list. *)
Fixpoint walk (text : jsstring) (sections : list SectionMarker)
  : list Segment :=
  match sections with
  | [] => []
  | section :: rest =>
      let contentEnd :=
        match rest with
        | next :: _ => startIndex next
        | [] => length text
        end in
      heading (name section)
      ++ paragraph (trim (substring text (endIndex section) contentEnd))
      ++ walk text rest
  end.

(** The pieces of a marked text outside the marker tokens, in text
    order: the leading text, then for each marker what stands between
    its tokens and the text that follows it. *)
Definition pieces (before : jsstring) (ms : list marker) : list jsstring :=
  before :: flat_map (fun m => [fst m; snd m]) ms.

(** [piece] and [kept] differ by white space at the two ends of [piece]
    only. *)
Definition EndsTrimmed (piece kept : jsstring) : Prop :=
  exists a b, piece = a ++ kept ++ b /\ AllSpace a /\ AllSpace b.

(** The first code unit, if any, is no white space. *)
Definition HeadOK (s : jsstring) : Prop :=
  match s with
  | [] => True
  | c :: _ => isSpace c = false
  end.

(** No leading and no trailing white space. *)
Definition Trimmed (s : jsstring) : Prop := trim s = s.

(** At most [n] code units of the class [p] in a row, anywhere in [s]. *)
Definition RunsAtMost (p : char -> bool) (n : nat) (s : jsstring) : Prop :=
  forall k, runLength p (skipn k s) <= n.

(** The first pass leaves the sections in text order, one after the
    other, each within the text and long enough for its two tokens. *)
Fixpoint SectionsInOrder (from : nat) (len : nat)
         (sections : list SectionMarker) : Prop :=
  match sections with
  | [] => True
  | section :: rest =>
      from <= startIndex section /\
      startIndex section + 32 <= endIndex section /\
      endIndex section <= len /\
      SectionsInOrder (endIndex section) len rest
  end.

End Marked.

Import Marked.

Unset Implicit Arguments.

(* ================================================================== *)
(** * Facts about JavaScript strings *)
(* ================================================================== *)

Module JSFacts.

Lemma eqb_eq (a b : jsstring) : JS.eqb a b = true <-> a = b.
Proof.
  revert b; induction a as [|x a IH]; intros [|y b]; simpl;
    try (split; [discriminate | discriminate]); try tauto.
  rewrite andb_true_iff, N.eqb_eq, IH.
  split; [intros [-> ->]; reflexivity | intros H; inversion H; auto].
Qed.

Lemma eqb_refl (a : jsstring) : JS.eqb a a = true.
Proof. apply eqb_eq; reflexivity. Qed.

Lemma startsWith_iff (p s : jsstring) :
  startsWith p s = true <-> exists r, s = p ++ r.
Proof.
  revert s; induction p as [|a p IH]; intros s; simpl.
  - split; [intros _; exists s; reflexivity | reflexivity].
  - destruct s as [|b s].
    + split; [discriminate | intros [r Hr]; discriminate].
    + rewrite andb_true_iff, N.eqb_eq, IH. split.
      * intros [-> [r ->]]. exists r. reflexivity.
      * intros [r Hr]. inversion Hr; subst. split; [reflexivity | eauto].
Qed.

Lemma startsWith_app (p r : jsstring) : startsWith p (p ++ r) = true.
Proof. apply startsWith_iff; eauto. Qed.

(** [startsWith p] only looks at the first [length p] code units. *)
Lemma startsWith_app_long (p s t : jsstring) :
  length p <= length s -> startsWith p (s ++ t) = startsWith p s.
Proof.
  revert s; induction p as [|a p IH]; intros s Hl; simpl; [reflexivity|].
  destruct s as [|b s]; simpl in *; [lia|].
  rewrite IH by lia. reflexivity.
Qed.

Lemma startsWith_short (p s : jsstring) :
  length s < length p -> startsWith p s = false.
Proof.
  intros Hl. destruct (startsWith p s) eqn:E; [|reflexivity].
  apply startsWith_iff in E as [r ->]. rewrite length_app in Hl. lia.
Qed.

Lemma includes_iff (needle s : jsstring) :
  includes needle s = true <->
  exists k, k <= length s /\ startsWith needle (skipn k s) = true.
Proof.
  induction s as [|c s IH]; simpl.
  - rewrite orb_false_r. split.
    + intros H. exists 0. auto.
    + intros [k [Hk H]]. destruct k; [exact H | lia].
  - rewrite orb_true_iff, IH. split.
    + intros [H | [k [Hk H]]].
      * exists 0. split; [lia | exact H].
      * exists (S k). split; [lia | exact H].
    + intros [[|k] [Hk H]]; [left; exact H | right].
      exists k. split; [lia | exact H].
Qed.

(** ** [trim] *)

Lemma trimStart_split (s : jsstring) :
  exists a, s = a ++ trimStart s /\ AllSpace a.
Proof.
  induction s as [|c s [a [Ha Hs]]]; simpl.
  - exists []. split; [reflexivity | constructor].
  - destruct (isSpace c) eqn:E.
    + exists (c :: a). split; [simpl; congruence | constructor; assumption].
    + exists []. split; [reflexivity | constructor].
Qed.

Lemma AllSpace_rev (s : jsstring) : AllSpace s -> AllSpace (rev s).
Proof. unfold AllSpace. intros H. apply Forall_rev. exact H. Qed.

Lemma trimEnd_split (s : jsstring) :
  exists b, s = trimEnd s ++ b /\ AllSpace b.
Proof.
  unfold trimEnd. destruct (trimStart_split (rev s)) as [a [Ha Hs]].
  exists (rev a). split; [|apply AllSpace_rev; exact Hs].
  rewrite <- rev_app_distr, <- Ha, rev_involutive. reflexivity.
Qed.

(** [trim] cuts a run of white space off either end and nothing else. *)
Lemma trim_split (s : jsstring) :
  exists a b, s = a ++ trim s ++ b /\ AllSpace a /\ AllSpace b.
Proof.
  destruct (trimStart_split s) as [a [Ha Hsa]].
  destruct (trimEnd_split (trimStart s)) as [b [Hb Hsb]].
  exists a, b. unfold trim. rewrite <- Hb. auto.
Qed.

Lemma stripSpace_app (s t : jsstring) :
  stripSpace (s ++ t) = stripSpace s ++ stripSpace t.
Proof. apply filter_app. Qed.

Lemma stripSpace_AllSpace (s : jsstring) : AllSpace s -> stripSpace s = [].
Proof.
  induction 1 as [|c s Hc _ IH]; simpl; [reflexivity|].
  rewrite Hc. simpl. exact IH.
Qed.

Lemma stripSpace_trim (s : jsstring) : stripSpace (trim s) = stripSpace s.
Proof.
  destruct (trim_split s) as [a [b [Hs [Ha Hb]]]].
  rewrite Hs at 2. rewrite !stripSpace_app.
  rewrite (stripSpace_AllSpace a Ha), (stripSpace_AllSpace b Hb), app_nil_r.
  reflexivity.
Qed.

Lemma trim_nil : trim [] = [].
Proof. reflexivity. Qed.

Lemma truthy_false (s : jsstring) : truthy s = false <-> s = [].
Proof. destruct s; simpl; split; congruence. Qed.

Lemma truthy_true (s : jsstring) : truthy s = true <-> s <> [].
Proof. destruct s; simpl; split; congruence. Qed.

(** ** [substring] *)

Lemma substring_middle (a m b : jsstring) :
  substring (a ++ m ++ b) (length a) (length a + length m) = m.
Proof.
  unfold substring. rewrite !length_app.
  replace (Nat.min (length a) (length a + (length m + length b)))
    with (length a) by lia.
  replace (Nat.min (length a + length m) (length a + (length m + length b)))
    with (length a + length m) by lia.
  replace (Nat.min (length a) (length a + length m)) with (length a) by lia.
  replace (Nat.max (length a) (length a + length m) - length a)
    with (length m) by lia.
  rewrite skipn_app, skipn_all, Nat.sub_diag. simpl.
  rewrite firstn_app, firstn_all, Nat.sub_diag. simpl.
  apply app_nil_r.
Qed.

Lemma substring_prefix (m b : jsstring) :
  substring (m ++ b) 0 (length m) = m.
Proof. apply (substring_middle [] m b). Qed.

Lemma substring_suffix (a m : jsstring) :
  substring (a ++ m) (length a) (length (a ++ m)) = m.
Proof.
  rewrite length_app.
  rewrite <- (app_nil_r m) at 1. apply (substring_middle a m []).
Qed.

End JSFacts.

Import JSFacts.

(* ================================================================== *)
(** * The section pattern and the first pass *)
(* ================================================================== *)

Module DecoderFacts.

Lemma length_START : length SECTION_START = 17.
Proof. vm_compute. reflexivity. Qed.

Lemma length_END : length SECTION_END = 15.
Proof. vm_compute. reflexivity. Qed.

Lemma matchHere_nil : matchHere [] = None.
Proof. vm_compute. reflexivity. Qed.

#[local] Opaque SECTION_START SECTION_END.

Lemma lazyCapture_eq (r : jsstring) :
  lazyCapture r =
  if startsWith SECTION_END r then Some []
  else match r with
       | [] => None
       | c :: r' =>
           if isLineTerminator c then None
           else option_map (cons c) (lazyCapture r')
       end.
Proof. destruct r; reflexivity. Qed.

Lemma execAt_eq (s : jsstring) (i : nat) :
  execAt s i =
  match matchHere s with
  | Some cap =>
      Some (mkMatch i cap
              (i + length SECTION_START + length cap + length SECTION_END))
  | None => match s with [] => None | _ :: s' => execAt s' (S i) end
  end.
Proof. destruct s; reflexivity. Qed.

Lemma ClosedFirst_tail (c : char) (cap : jsstring) :
  ClosedFirst (c :: cap) -> ClosedFirst cap.
Proof. intros H k Hk. apply (H (S k)). simpl. lia. Qed.

Lemma lazyCapture_sound (r cap : jsstring) :
  lazyCapture r = Some cap ->
  exists rest,
    r = cap ++ SECTION_END ++ rest /\ NoLineBreak cap /\ ClosedFirst cap.
Proof.
  revert cap. induction r as [|c r IH]; intros cap; rewrite lazyCapture_eq.
  - destruct (startsWith SECTION_END []) eqn:E; [|discriminate].
    intros [= <-]. apply startsWith_iff in E as [rest E].
    exists rest. repeat split; [exact E | constructor | intros k Hk; inversion Hk].
  - destruct (startsWith SECTION_END (c :: r)) eqn:E.
    + intros [= <-]. apply startsWith_iff in E as [rest E].
      exists rest. repeat split; [exact E | constructor | intros k Hk; inversion Hk].
    + destruct (isLineTerminator c) eqn:Ec; [discriminate|].
      destruct (lazyCapture r) as [cap'|] eqn:Er; [|discriminate].
      intros [= <-].
      destruct (IH cap' eq_refl) as [rest [Hr [Hn Hc]]].
      exists rest. split; [simpl; congruence|].
      split; [constructor; assumption|].
      intros [|k] Hk.
      * simpl skipn. rewrite <- E, Hr.
        change (c :: cap' ++ SECTION_END ++ rest)
          with ((c :: cap') ++ SECTION_END ++ rest).
        rewrite (app_assoc (c :: cap')).
        symmetry. apply startsWith_app_long.
        simpl. rewrite length_app. lia.
      * simpl. apply Hc. simpl in Hk. lia.
Qed.

Lemma lazyCapture_complete (cap rest : jsstring) :
  NoLineBreak cap -> ClosedFirst cap ->
  lazyCapture (cap ++ SECTION_END ++ rest) = Some cap.
Proof.
  induction cap as [|c cap IH]; intros Hn Hc; rewrite lazyCapture_eq.
  - simpl. rewrite startsWith_app. reflexivity.
  - assert (E : startsWith SECTION_END ((c :: cap) ++ SECTION_END ++ rest)
                = false).
    { rewrite app_assoc, startsWith_app_long by (rewrite length_app; lia).
      apply (Hc 0). simpl. lia. }
    rewrite E. simpl. inversion Hn as [|? ? Hc0 Hn']; subst.
    rewrite Hc0, IH; [reflexivity | assumption |].
    eapply ClosedFirst_tail; eassumption.
Qed.

Lemma lazyCapture_total (cap rest : jsstring) :
  NoLineBreak cap ->
  exists cap', lazyCapture (cap ++ SECTION_END ++ rest) = Some cap'.
Proof.
  induction 1 as [|c cap Hc0 Hn [cap' IH]]; rewrite lazyCapture_eq.
  - simpl. rewrite startsWith_app. eauto.
  - destruct (startsWith SECTION_END _); [eauto|].
    simpl. rewrite Hc0, IH. simpl. eauto.
Qed.

Lemma skipn_START (x : jsstring) :
  skipn (length SECTION_START) (SECTION_START ++ x) = x.
Proof. rewrite skipn_app, skipn_all, Nat.sub_diag. reflexivity. Qed.

Lemma matchHere_sound (s cap : jsstring) :
  matchHere s = Some cap ->
  exists rest,
    s = SECTION_START ++ cap ++ SECTION_END ++ rest
    /\ NoLineBreak cap /\ ClosedFirst cap.
Proof.
  unfold matchHere. destruct (startsWith SECTION_START s) eqn:E; [|discriminate].
  apply startsWith_iff in E as [r ->]. rewrite skipn_START.
  intros H. destruct (lazyCapture_sound _ _ H) as [rest [-> [Hn Hc]]].
  exists rest. auto.
Qed.

Lemma matchHere_complete (cap rest : jsstring) :
  NoLineBreak cap -> ClosedFirst cap ->
  matchHere (SECTION_START ++ cap ++ SECTION_END ++ rest) = Some cap.
Proof.
  intros Hn Hc. unfold matchHere.
  rewrite startsWith_app, skipn_START. apply lazyCapture_complete; assumption.
Qed.

Lemma matchHere_None_iff (s : jsstring) :
  matchHere s = None <-> ~ Matches s.
Proof.
  split.
  - intros H [cap [rest [-> Hn]]]. unfold matchHere in H.
    rewrite startsWith_app, skipn_START in H.
    destruct (lazyCapture_total cap rest Hn) as [cap' E]. congruence.
  - intros H. destruct (matchHere s) as [cap|] eqn:E; [|reflexivity].
    exfalso. apply H. destruct (matchHere_sound _ _ E) as [rest [Hs [Hn _]]].
    exists cap, rest. auto.
Qed.

Lemma Matches_app (s t : jsstring) : Matches s -> Matches (s ++ t).
Proof.
  intros [cap [rest [-> Hn]]]. exists cap, (rest ++ t).
  split; [|exact Hn]. rewrite <- !app_assoc. reflexivity.
Qed.

Lemma Gap_nil (s : jsstring) : Gap [] s.
Proof. intros p Hp. inversion Hp. Qed.

Lemma Gap_tail (c : char) (g s : jsstring) : Gap (c :: g) s -> Gap g s.
Proof. intros H p Hp. apply (H (S p)). simpl. lia. Qed.

Lemma Gap_cons (c : char) (g s : jsstring) :
  ~ Matches (c :: g ++ s) -> Gap g s -> Gap (c :: g) s.
Proof.
  intros H0 H [|p] Hp; [exact H0|]. apply H. simpl in Hp. lia.
Qed.

(** ** [exec] finds the leftmost marker *)

Lemma execAt_found (g cap rest : jsstring) (i : nat) :
  Gap g (SECTION_START ++ cap ++ SECTION_END ++ rest) ->
  NoLineBreak cap -> ClosedFirst cap ->
  execAt (g ++ SECTION_START ++ cap ++ SECTION_END ++ rest) i =
  Some (mkMatch (i + length g) cap (i + length g + 17 + length cap + 15)).
Proof.
  revert i. induction g as [|c g IH]; intros i Hg Hn Hc; rewrite execAt_eq.
  - simpl app. rewrite matchHere_complete by assumption.
    rewrite length_START, length_END. simpl. rewrite Nat.add_0_r. reflexivity.
  - assert (E : matchHere ((c :: g) ++ SECTION_START ++ cap ++ SECTION_END ++ rest)
                = None).
    { apply matchHere_None_iff. apply (Hg 0). simpl. lia. }
    rewrite E. cbn [app]. rewrite IH; [|eapply Gap_tail; eassumption|assumption..].
    simpl. f_equal. f_equal; lia.
Qed.

Lemma execAt_none (g : jsstring) (i : nat) :
  Gap g [] -> execAt g i = None.
Proof.
  revert i. induction g as [|c g IH]; intros i Hg; rewrite execAt_eq.
  - rewrite matchHere_nil. reflexivity.
  - assert (E : matchHere (c :: g) = None).
    { apply matchHere_None_iff. specialize (Hg 0). rewrite app_nil_r in Hg.
      apply Hg. simpl. lia. }
    rewrite E. apply IH. eapply Gap_tail; eassumption.
Qed.

Lemma execAt_sound (s : jsstring) (i : nat) (m : RegExpMatch) :
  execAt s i = Some m ->
  exists g cap rest,
    s = g ++ SECTION_START ++ cap ++ SECTION_END ++ rest
    /\ Gap g (SECTION_START ++ cap ++ SECTION_END ++ rest)
    /\ NoLineBreak cap /\ ClosedFirst cap
    /\ m = mkMatch (i + length g) cap (i + length g + 17 + length cap + 15).
Proof.
  revert i. induction s as [|c s IH]; intros i; rewrite execAt_eq.
  - rewrite matchHere_nil. discriminate.
  - destruct (matchHere (c :: s)) as [cap|] eqn:E.
    + intros [= <-]. destruct (matchHere_sound _ _ E) as [rest [Hs [Hn Hc]]].
      exists [], cap, rest. rewrite length_START, length_END. simpl.
      rewrite Nat.add_0_r. repeat split; auto using Gap_nil.
    + intros H. destruct (IH _ H) as [g [cap [rest [Hs [Hg [Hn [Hc Hm]]]]]]].
      exists (c :: g), cap, rest. subst s. repeat split; auto.
      * apply Gap_cons; [|exact Hg]. apply matchHere_None_iff. exact E.
      * rewrite Hm. simpl. f_equal; lia.
Qed.

Lemma execAt_None_gap (s : jsstring) (i : nat) :
  execAt s i = None -> Gap s [].
Proof.
  revert i. induction s as [|c s IH]; intros i; rewrite execAt_eq.
  - intros _. apply Gap_nil.
  - destruct (matchHere (c :: s)) eqn:E; [discriminate|].
    intros H. apply Gap_cons; [|eapply IH; eassumption].
    rewrite app_nil_r. apply matchHere_None_iff. exact E.
Qed.

Lemma exec_at_prefix (pre x : jsstring) :
  exec (pre ++ x) (length pre) = execAt x (length pre).
Proof.
  unfold exec. rewrite length_app.
  replace (length pre <=? length pre + length x) with true
    by (symmetry; apply Nat.leb_le; lia).
  rewrite skipn_app, skipn_all, Nat.sub_diag. reflexivity.
Qed.

End DecoderFacts.

Import DecoderFacts.

(* ================================================================== *)
(** * The decoder on marked texts *)
(* ================================================================== *)

Module SectionFacts.

#[local] Opaque SECTION_START SECTION_END.

Lemma length_render_cons (cap body : jsstring) (ms : list marker) :
  length (render ((cap, body) :: ms)) =
  17 + length cap + 15 + length body + length (render ms).
Proof.
  simpl. rewrite !length_app, length_START, length_END. lia.
Qed.

(** ** First pass *)

Lemma collectSections_render (ms : list marker) :
  forall (pre g : jsstring) (fuel : nat),
    WellMarked ms -> Gap g (render ms) ->
    length (g ++ render ms) < fuel ->
    collectSections fuel (pre ++ g ++ render ms) (length pre) =
    sectionsOf (length pre + length g) ms.
Proof.
  induction ms as [|[cap body] ms IH]; intros pre g fuel Hw Hg Hf;
    (destruct fuel as [|fuel]; [inversion Hf|]); simpl collectSections.
  - rewrite exec_at_prefix. simpl render in *.
    rewrite app_nil_r. rewrite execAt_none; [reflexivity | exact Hg].
  - destruct Hw as [Hn [Hc [Hb Hw]]].
    rewrite exec_at_prefix. simpl render in *.
    rewrite execAt_found by assumption. simpl.
    set (pre' := pre ++ g ++ SECTION_START ++ cap ++ SECTION_END).
    assert (Hl : length pre' = length pre + length g + 17 + length cap + 15).
    { unfold pre'. rewrite !length_app, length_START, length_END. lia. }
    replace (pre ++ g ++ SECTION_START ++ cap ++ SECTION_END ++ body ++ render ms)
      with (pre' ++ body ++ render ms)
      by (unfold pre'; rewrite <- !app_assoc; reflexivity).
    rewrite <- Hl. rewrite IH; [|assumption..|].
    + rewrite Hl. reflexivity.
    + rewrite !length_app, length_START, length_END in Hf.
      rewrite length_app. lia.
Qed.

Lemma findSections_render (before : jsstring) (ms : list marker) :
  WellMarked ms -> Gap before (render ms) ->
  findSections (before ++ render ms) = sectionsOf (length before) ms.
Proof.
  intros Hw Hg. unfold findSections.
  apply (collectSections_render ms [] before); auto.
Qed.

(** ** Second pass *)

Lemma secondPass_from (text : jsstring) (secs : list SectionMarker) :
  forall pre,
    flat_map (sectionParts text (pre ++ secs))
             (seq (length pre) (length secs)) = walk text secs.
Proof.
  induction secs as [|sec rest IH]; intros pre; [reflexivity|].
  simpl seq. simpl flat_map. simpl walk.
  unfold sectionParts at 1.
  rewrite nth_error_app2 by lia. rewrite Nat.sub_diag. simpl nth_error.
  rewrite nth_error_app2 by lia.
  replace (length pre + 1 - length pre) with 1 by lia. simpl nth_error.
  rewrite <- app_assoc. f_equal. f_equal.
  - destruct rest; reflexivity.
  - specialize (IH (pre ++ [sec])).
    rewrite <- app_assoc, length_app in IH. simpl in IH.
    rewrite Nat.add_1_r in IH. exact IH.
Qed.

Lemma secondPass_walk (text : jsstring) (secs : list SectionMarker) :
  secondPass text secs = walk text secs.
Proof. apply (secondPass_from text secs []). Qed.

Lemma heading_spec (t : jsstring) :
  heading t = match t with [] => [] | _ :: _ => [Heading t] end.
Proof. destruct t; reflexivity. Qed.

Lemma paragraph_spec (t : jsstring) :
  paragraph t = match t with [] => [] | _ :: _ => [Paragraph t] end.
Proof. destruct t; reflexivity. Qed.

Lemma walk_render (ms : list marker) :
  forall pre,
    walk (pre ++ render ms) (sectionsOf (length pre) ms) =
    flat_map specMarker ms.
Proof.
  induction ms as [|[cap body] ms IH]; intros pre; [reflexivity|].
  simpl sectionsOf. simpl walk. simpl flat_map. simpl render.
  set (pre' := pre ++ SECTION_START ++ cap ++ SECTION_END).
  assert (Hl : length pre' = length pre + 17 + length cap + 15).
  { unfold pre'. rewrite !length_app, length_START, length_END. lia. }
  replace (pre ++ SECTION_START ++ cap ++ SECTION_END ++ body ++ render ms)
    with (pre' ++ body ++ render ms)
    by (unfold pre'; rewrite <- !app_assoc; reflexivity).
  rewrite <- Hl.
  assert (Hsub :
    substring (pre' ++ body ++ render ms) (length pre')
      match sectionsOf (length pre' + length body) ms with
      | [] => length (pre' ++ body ++ render ms)
      | next :: _ => startIndex next
      end = body).
  { destruct ms as [|[cap2 body2] ms]; simpl sectionsOf; simpl render.
    - rewrite app_nil_r. apply substring_suffix.
    - simpl startIndex. apply substring_middle. }
  rewrite Hsub. unfold specMarker. simpl fst. simpl snd.
  rewrite heading_spec, paragraph_spec. rewrite <- app_assoc.
  f_equal. f_equal.
  specialize (IH (pre' ++ body)).
  rewrite <- app_assoc, length_app in IH. exact IH.
Qed.

Lemma textBefore_render (before : jsstring) (ms : list marker) :
  ms <> [] ->
  textBefore (before ++ render ms) (sectionsOf (length before) ms) =
  match trim before with [] => [] | _ :: _ => [Paragraph (trim before)] end.
Proof.
  destruct ms as [|[cap body] ms]; [congruence|]. intros _.
  simpl sectionsOf. unfold textBefore. simpl startIndex.
  destruct before as [|c before].
  - reflexivity.
  - replace (0 <? length (c :: before)) with true by reflexivity.
    rewrite substring_prefix. apply paragraph_spec.
Qed.

Lemma includes_render (before : jsstring) (ms : list marker) :
  ms <> [] -> includes SECTION_START (before ++ render ms) = true.
Proof.
  destruct ms as [|[cap body] ms]; [congruence|]. intros _.
  apply includes_iff. exists (length before). split.
  - rewrite length_app. lia.
  - rewrite skipn_app, skipn_all, Nat.sub_diag. simpl.
    apply startsWith_app.
Qed.

Lemma render_nonempty (before : jsstring) (ms : list marker) :
  ms <> [] -> truthy (before ++ render ms) = true.
Proof.
  destruct ms as [|[cap body] ms]; [congruence|]. intros _.
  apply truthy_true. intros H. apply (f_equal (@length _)) in H.
  rewrite length_app, length_render_cons in H. simpl in H. lia.
Qed.

(** The decoder on a marked text: the segments the specification lists,
    or the whole text when there are none. *)
Lemma decode_render (before : jsstring) (ms : list marker) :
  ms <> [] -> Gap before (render ms) -> WellMarked ms ->
  formatTextWithSections (Some (before ++ render ms)) =
  match specDecode before ms with
  | [] => [Paragraph (before ++ render ms)]
  | parts => parts
  end.
Proof.
  intros Hne Hg Hw. unfold formatTextWithSections.
  rewrite render_nonempty, includes_render by assumption. simpl negb. cbv iota.
  rewrite findSections_render by assumption.
  rewrite secondPass_walk, walk_render, textBefore_render by assumption.
  fold (specDecode before ms). destruct (specDecode before ms); reflexivity.
Qed.

(** A text without any marker decodes to itself. *)
Lemma decode_unmarked (text : jsstring) :
  text <> [] -> Gap text [] ->
  formatTextWithSections (Some text) = [Paragraph text].
Proof.
  intros Hne Hg. unfold formatTextWithSections.
  apply truthy_true in Hne. rewrite Hne. simpl negb. cbv iota.
  destruct (includes SECTION_START text); [|reflexivity]. simpl negb. cbv iota.
  pose proof (findSections_render text [] I) as H. simpl render in H.
  rewrite app_nil_r in H. rewrite H by exact Hg. reflexivity.
Qed.

(** ** Every text is a marked text, in one way *)

Lemma decompose_bounded (n : nat) :
  forall s, length s <= n ->
    exists g ms, s = g ++ render ms /\ Gap g (render ms) /\ WellMarked ms.
Proof.
  induction n as [|n IH]; intros s Hl.
  - destruct s; [|simpl in Hl; lia].
    exists [], []. repeat split. apply Gap_nil.
  - destruct (execAt s 0) as [m|] eqn:E.
    + destruct (execAt_sound _ _ _ E) as [g [cap [rest [Hs [Hg [Hn [Hc _]]]]]]].
      destruct (IH rest) as [body [ms [Hr [Hb Hw]]]].
      { subst s. rewrite !length_app, length_START, length_END in Hl. lia. }
      exists g, ((cap, body) :: ms). subst rest. simpl.
      repeat split; assumption.
    + exists s, []. simpl. rewrite app_nil_r.
      repeat split. eapply execAt_None_gap; eassumption.
Qed.

Lemma decompose (text : jsstring) :
  exists before ms,
    text = before ++ render ms /\ Gap before (render ms) /\ WellMarked ms.
Proof. apply (decompose_bounded (length text)). lia. Qed.

(** The first pass never stops for lack of fuel: any bound above the
    length of the text gives the same section list. *)
Lemma collectSections_enough_fuel (text : jsstring) (fuel : nat) :
  length text < fuel -> collectSections fuel text 0 = findSections text.
Proof.
  intros Hf. destruct (decompose text) as [before [ms [Ht [Hg Hw]]]].
  subst text. rewrite findSections_render by assumption.
  apply (collectSections_render ms [] before fuel); assumption.
Qed.

(** ** Decidable forms *)

Lemma noLineBreakb_correct (cap : jsstring) :
  noLineBreakb cap = true -> NoLineBreak cap.
Proof.
  unfold noLineBreakb, NoLineBreak. rewrite forallb_forall, Forall_forall.
  intros H c Hc. specialize (H c Hc). destruct (isLineTerminator c); auto.
Qed.

Lemma closedFirstb_correct (cap : jsstring) :
  closedFirstb cap = true -> ClosedFirst cap.
Proof.
  unfold closedFirstb, ClosedFirst. rewrite forallb_forall.
  intros H k Hk. specialize (H k). rewrite in_seq in H.
  destruct (startsWith SECTION_END _); [|reflexivity].
  discriminate H. lia.
Qed.

Lemma gapb_correct (g s : jsstring) : gapb g s = true -> Gap g s.
Proof.
  unfold gapb, Gap. rewrite forallb_forall.
  intros H p Hp. specialize (H p). rewrite in_seq in H.
  apply matchHere_None_iff.
  destruct (matchHere (skipn p (g ++ s))); [|reflexivity].
  discriminate H. lia.
Qed.

Lemma wellMarkedb_correct (ms : list marker) :
  wellMarkedb ms = true -> WellMarked ms.
Proof.
  induction ms as [|[cap body] ms IH]; simpl; [trivial|].
  rewrite !andb_true_iff. intros [[[Hn Hc] Hg] Hw].
  auto using noLineBreakb_correct, closedFirstb_correct, gapb_correct.
Qed.

End SectionFacts.

Import SectionFacts.

(* ================================================================== *)
(** * Properties of the section decoder *)
(* ================================================================== *)

Module DecoderProperties.

#[local] Opaque SECTION_START SECTION_END.

(** ** Paragraphs of a decoding hold no marker *)

Lemma skipn_inside (a m b : jsstring) (p : nat) :
  p <= length m -> skipn (length a + p) (a ++ m ++ b) = skipn p m ++ b.
Proof.
  intros Hp. rewrite skipn_app.
  replace (length a + p - length a) with p by lia.
  rewrite (skipn_all2 a) by lia. simpl.
  rewrite skipn_app. replace (p - length m) with 0 by lia. reflexivity.
Qed.

Lemma Gap_trim (x s : jsstring) : Gap x s -> Gap (trim x) [].
Proof.
  intros Hg p Hp Hm.
  destruct (trim_split x) as [a [b [Hx _]]].
  set (t := trim x) in *. clearbody t. subst x.
  apply (Hg (length a + p)).
  - rewrite !length_app. lia.
  - rewrite <- !app_assoc.
    rewrite skipn_inside by lia.
    rewrite app_nil_r in Hm. apply Matches_app. exact Hm.
Qed.

Lemma WellMarked_In (ms : list marker) (cap body : jsstring) :
  WellMarked ms -> In (cap, body) ms -> exists s, Gap body s.
Proof.
  induction ms as [|[cap' body'] ms IH]; simpl; [tauto|].
  intros [_ [_ [Hg Hw]]] [[= -> ->] | Hin]; eauto.
Qed.

Lemma In_specDecode (p before : jsstring) (ms : list marker) :
  In (Paragraph p) (specDecode before ms) ->
  p <> [] /\
  (p = trim before \/ exists cap body, In (cap, body) ms /\ p = trim body).
Proof.
  unfold specDecode. rewrite in_app_iff, in_flat_map.
  intros [H | [[cap body] [Hin H]]].
  - destruct (trim before) as [|c t] eqn:E; simpl in H; [tauto|].
    destruct H as [[= <-] | []]. split; [discriminate | auto].
  - unfold specMarker in H. simpl fst in H. simpl snd in H.
    rewrite in_app_iff in H. destruct H as [H | H].
    + destruct (trim cap); simpl in H; [tauto|].
      destruct H as [H | []]. discriminate H.
    + destruct (trim body) as [|c t] eqn:E; simpl in H; [tauto|].
      destruct H as [[= <-] | []]. split; [discriminate|].
      right. exists cap, body. auto.
Qed.

Lemma redecode_paragraph (text p : jsstring) :
  In (Paragraph p) (formatTextWithSections (Some text)) ->
  formatTextWithSections (Some p) = [Paragraph p].
Proof.
  destruct (decompose text) as [before [ms [Ht [Hg Hw]]]].
  assert (Hsame : formatTextWithSections (Some text) = [Paragraph text] ->
                  In (Paragraph p) (formatTextWithSections (Some text)) ->
                  formatTextWithSections (Some p) = [Paragraph p]).
  { intros E Hin. rewrite E in Hin. destruct Hin as [[= <-] | []]. exact E. }
  destruct ms as [|m ms].
  - simpl in Ht. rewrite app_nil_r in Ht. subst before.
    destruct text as [|c text]; [intros []|].
    apply Hsame. apply decode_unmarked; [discriminate | exact Hg].
  - assert (Hne : m :: ms <> []) by discriminate.
    pose proof (decode_render before (m :: ms) Hne Hg Hw) as E.
    rewrite <- Ht in E.
    destruct (specDecode before (m :: ms)) as [|g parts] eqn:Es.
    + apply Hsame. exact E.
    + intros Hin.
      assert (Hin' : In (Paragraph p) (specDecode before (m :: ms))).
      { rewrite Es. rewrite <- E. exact Hin. }
      destruct (In_specDecode _ _ _ Hin')
        as [Hp [-> | [cap [body [Hm ->]]]]].
      * apply decode_unmarked; [exact Hp | eapply Gap_trim; eassumption].
      * destruct (WellMarked_In _ _ _ Hw Hm) as [s Hs].
        apply decode_unmarked; [exact Hp | eapply Gap_trim; eassumption].
Qed.

(** ** What the segments keep of the text *)

Lemma strip_piece (mk : jsstring -> Segment) (x : jsstring) :
  (forall t, segText (mk t) = t) ->
  stripSpace (concat (map segText
    match trim x with [] => [] | _ :: _ => [mk (trim x)] end)) = stripSpace x.
Proof.
  intros Hmk. rewrite <- (stripSpace_trim x).
  destruct (trim x) as [|c t]; [reflexivity|].
  simpl. rewrite Hmk, app_nil_r. reflexivity.
Qed.

Lemma strip_specDecode (before : jsstring) (ms : list marker) :
  stripSpace (concat (map segText (specDecode before ms))) =
  stripSpace (unmarked before ms).
Proof.
  unfold specDecode, unmarked.
  rewrite map_app, concat_app, !stripSpace_app.
  rewrite (strip_piece Paragraph) by reflexivity. f_equal.
  induction ms as [|[cap body] ms IH]; [reflexivity|].
  simpl flat_map. unfold specMarker at 1. simpl fst. simpl snd.
  rewrite !map_app, !concat_app, !stripSpace_app.
  rewrite (strip_piece Heading), (strip_piece Paragraph) by reflexivity.
  rewrite IH. reflexivity.
Qed.

End DecoderProperties.

Import DecoderProperties.

(** C1, as amended.  A text made of a leading text and one or more
    well-formed markers, each followed by its text, decodes to: the
    trimmed leading text as a Paragraph unless empty, then per marker a
    Heading with its name unless empty and a Paragraph with the trimmed
    text that follows unless empty.  When this list is empty, the
    decoder returns the whole text as one Paragraph instead. *)
Theorem C1_marked_text_decodes (before : jsstring) (ms : list marker) :
  ms <> [] -> Gap before (render ms) -> WellMarked ms ->
  formatTextWithSections (Some (before ++ render ms)) =
  match specDecode before ms with
  | [] => [Paragraph (before ++ render ms)]
  | parts => parts
  end.
Proof. apply decode_render. Qed.

(** C1 at the text of the specification,
    [START Intro END hello START Methods END world]. *)
Lemma C1_intro_methods_witness :
  let ms := [(lit " Intro ", lit " hello "); (lit " Methods ", lit " world")] in
  (ms <> [] /\ Gap [] (render ms) /\ WellMarked ms) /\
  formatTextWithSections
    (Some (lit "##SECTION_START## Intro ##SECTION_END## hello ##SECTION_START## Methods ##SECTION_END## world"))
  = [Heading (lit "Intro"); Paragraph (lit "hello");
     Heading (lit "Methods"); Paragraph (lit "world")].
Proof.
  intros ms.
  assert (Hne : ms <> []) by discriminate.
  assert (Hg : Gap [] (render ms)) by apply Gap_nil.
  assert (Hw : WellMarked ms)
    by (apply wellMarkedb_correct; vm_compute; reflexivity).
  split; [auto|].
  pose proof (C1_marked_text_decodes [] ms Hne Hg Hw) as H.
  vm_compute in H. vm_compute. exact H.
Defined.

Example decode_preamble :
  formatTextWithSections
    (Some (lit "preamble ##SECTION_START## A ##SECTION_END## body"))
  = [Paragraph (lit "preamble"); Heading (lit "A"); Paragraph (lit "body")].
Proof. vm_compute. reflexivity. Qed.

(** C1 as stated fails on a marker with no name and no text: the listed
    segments are none, yet the decoder emits the raw text. *)
Lemma C1_empty_marker_counterexample :
  let ms := [([], [])] : list marker in
  WellMarked ms /\ Gap [] (render ms) /\
  render ms = lit "##SECTION_START####SECTION_END##" /\
  specDecode [] ms = [] /\
  formatTextWithSections (Some (render ms)) =
    [Paragraph (lit "##SECTION_START####SECTION_END##")] /\
  formatTextWithSections (Some ([] ++ render ms)) <> specDecode [] ms.
Proof.
  intros ms. split; [apply wellMarkedb_correct; vm_compute; reflexivity|].
  split; [apply Gap_nil|].
  repeat split; try (vm_compute; reflexivity).
  vm_compute. discriminate.
Qed.

(** C8.  An absent or empty body decodes to no segment; a non-empty body
    without the opening token, or without any complete marker, decodes to
    one Paragraph holding the body unchanged. *)
Theorem C8_empty_and_plain_bodies :
  formatTextWithSections None = [] /\
  formatTextWithSections (Some []) = [] /\
  forall text : jsstring,
    text <> [] ->
    includes SECTION_START text = false \/ Gap text [] ->
    formatTextWithSections (Some text) = [Paragraph text].
Proof.
  split; [reflexivity|]. split; [reflexivity|].
  intros text Hne [Hi | Hg].
  - unfold formatTextWithSections. apply truthy_true in Hne.
    rewrite Hne, Hi. reflexivity.
  - apply decode_unmarked; assumption.
Qed.

Lemma C8_plain_bodies_witness :
  formatTextWithSections (Some (lit "  two  spaces, kept "))
    = [Paragraph (lit "  two  spaces, kept ")] /\
  formatTextWithSections (Some (lit "##SECTION_START## never closed"))
    = [Paragraph (lit "##SECTION_START## never closed")].
Proof.
  destruct C8_empty_and_plain_bodies as [_ [_ H]]. split.
  - apply H; [discriminate|]. left. vm_compute. reflexivity.
  - apply H; [discriminate|]. right. apply gapb_correct.
    vm_compute. reflexivity.
Defined.

Lemma concat_pieces (before : jsstring) (ms : list marker) :
  concat (pieces before ms) = unmarked before ms.
Proof.
  unfold pieces, unmarked. simpl. f_equal.
  induction ms as [|[cap body] ms IH]; [reflexivity|].
  simpl. rewrite IH, app_assoc. reflexivity.
Qed.

Lemma pieces_EndsTrimmed (ps : list jsstring) :
  Forall (fun piece => EndsTrimmed piece (trim piece)) ps.
Proof.
  apply Forall_forall. intros piece _.
  destruct (trim_split piece) as [a [b H]]. exists a, b. exact H.
Qed.

Lemma kept_piece (mk : jsstring -> Segment) (x : jsstring) :
  (forall t, segText (mk t) = t) ->
  map segText match trim x with [] => [] | _ :: _ => [mk (trim x)] end =
  filter truthy [trim x].
Proof.
  intros Hmk. destruct (trim x) as [|c t] eqn:E; [reflexivity|].
  simpl. rewrite Hmk. reflexivity.
Qed.

(** The texts of the listed segments are the trimmed pieces that are not
    empty, one for one and in order. *)
Lemma texts_specDecode (before : jsstring) (ms : list marker) :
  map segText (specDecode before ms) =
  filter truthy (map trim (pieces before ms)).
Proof.
  unfold specDecode, pieces. rewrite map_app.
  change (map trim (before :: flat_map (fun m => [fst m; snd m]) ms))
    with ([trim before] ++ map trim (flat_map (fun m => [fst m; snd m]) ms)).
  rewrite filter_app, (kept_piece Paragraph) by reflexivity. f_equal.
  induction ms as [|[cap body] ms IH]; [reflexivity|].
  simpl flat_map. unfold specMarker at 1. simpl fst. simpl snd.
  rewrite !map_app, IH.
  rewrite (kept_piece Heading), (kept_piece Paragraph) by reflexivity.
  change (map trim (cap :: body :: flat_map (fun m => [fst m; snd m]) ms))
    with ([trim cap] ++ [trim body]
          ++ map trim (flat_map (fun m => [fst m; snd m]) ms)).
  rewrite !filter_app, <- app_assoc. reflexivity.
Qed.

(** C4, as amended.  Decoding the text of an emitted Paragraph again
    returns that Paragraph alone.  The body outside its marker tokens is
    a sequence of pieces: the leading text, then per marker its name and
    the text that follows.  Either the decoder returns the whole body as
    one Paragraph, or the segment texts are, one for one and in the
    original order, the pieces trimmed, a piece that trims to nothing
    giving no segment; a trimmed piece is the piece without the white
    space at its two ends, every code unit in between, white space
    included, kept where it was. *)
Theorem C4_redecoding_and_content (text : jsstring) :
  (forall p, In (Paragraph p) (formatTextWithSections (Some text)) ->
             formatTextWithSections (Some p) = [Paragraph p]) /\
  exists before ms,
    text = before ++ render ms /\ Gap before (render ms) /\ WellMarked ms /\
    concat (pieces before ms) = unmarked before ms /\
    Forall (fun piece => EndsTrimmed piece (trim piece)) (pieces before ms) /\
    (formatTextWithSections (Some text) = [Paragraph text] \/
     map segText (formatTextWithSections (Some text)) =
     filter truthy (map trim (pieces before ms))).
Proof.
  split; [intros p; apply redecode_paragraph|].
  destruct (decompose text) as [before [ms [Ht [Hg Hw]]]].
  exists before, ms.
  split; [assumption|]. split; [assumption|]. split; [assumption|].
  split; [apply concat_pieces|]. split; [apply pieces_EndsTrimmed|].
  destruct ms as [|m ms].
  - simpl in Ht. rewrite app_nil_r in Ht. subst before.
    destruct text as [|c text]; [right; reflexivity|].
    left. apply decode_unmarked; [discriminate | exact Hg].
  - assert (Hne : m :: ms <> []) by discriminate.
    pose proof (decode_render before (m :: ms) Hne Hg Hw) as E.
    rewrite <- Ht in E.
    destruct (specDecode before (m :: ms)) as [|g parts] eqn:Es.
    + left. exact E.
    + right.
      replace (formatTextWithSections (Some text))
        with (specDecode before (m :: ms))
        by (rewrite Es; symmetry; exact E).
      apply texts_specDecode.
Qed.

Lemma C4_redecoding_witness :
  formatTextWithSections (Some (lit "b ##SECTION_START## c")) =
  [Paragraph (lit "b ##SECTION_START## c")].
Proof.
  apply (proj1 (C4_redecoding_and_content
    (lit "a ##SECTION_START##H##SECTION_END## b ##SECTION_START## c "))).
  vm_compute. auto.
Defined.

(** C4 as stated fails: the white space next to a marker is part of the
    body, outside every marker, and is in no segment. *)
Lemma C4_trimmed_space_counterexample :
  let text := lit "a ##SECTION_START##H##SECTION_END## b" in
  let ms := [(lit "H", lit " b")] in
  text = lit "a " ++ render ms /\
  Gap (lit "a ") (render ms) /\ WellMarked ms /\
  formatTextWithSections (Some text) =
    [Paragraph (lit "a"); Heading (lit "H"); Paragraph (lit "b")] /\
  In SPACE (unmarked (lit "a ") ms) /\
  ~ In SPACE (concat (map segText (formatTextWithSections (Some text)))).
Proof.
  intros text ms.
  split; [vm_compute; reflexivity|].
  split; [apply gapb_correct; vm_compute; reflexivity|].
  split; [apply wellMarkedb_correct; vm_compute; reflexivity|].
  split; [vm_compute; reflexivity|].
  split; [vm_compute; auto|].
  vm_compute. intros H.
  repeat (destruct H as [H | H]; [discriminate H|]). exact H.
Qed.

(* ================================================================== *)
(** * The abstract formatter *)
(* ================================================================== *)

Module AbstractFacts.

Lemma In_trim (c : char) (s : jsstring) : In c (trim s) -> In c s.
Proof.
  intros H. destruct (trim_split s) as [a [b [Hs _]]].
  rewrite Hs. rewrite !in_app_iff. auto.
Qed.

(** After [/\s+/g] has been replaced by a space, a space is the only
    white space left. *)
Lemma collapseSpaces_space (inRun : bool) (s : jsstring) (c : char) :
  In c (collapseSpaces inRun s) -> isSpace c = true -> c = SPACE.
Proof.
  revert inRun. induction s as [|d s IH]; intros inRun; simpl; [tauto|].
  destruct (isSpace d) eqn:Ed.
  - rewrite in_app_iff. intros [H | H] Hc; [|eapply IH; eassumption].
    destruct inRun; simpl in H; [tauto|]. destruct H as [H | []]. auto.
  - simpl. intros [-> | H] Hc; [congruence | eapply IH; eassumption].
Qed.

Lemma formatAbstract_space (abstract : option jsstring) (c : char) :
  In c (formatAbstract abstract) -> isSpace c = true -> c = SPACE.
Proof.
  destruct abstract as [a|]; simpl; [|tauto].
  destruct (truthy a); simpl; [|tauto].
  intros H. apply In_trim in H. eapply collapseSpaces_space; eassumption.
Qed.

End AbstractFacts.

Import AbstractFacts.

(** C3.  An absent or empty abstract formats to the empty string and all
    white space of the result is single spaces; but no paragraph break
    is in any result: the line feeds put before a keyword are white
    space, and the replacement that follows folds them into a space.
    So in ["Aim one. Methods two."] the break before [Methods] is
    inserted and lost again. *)
Theorem C3_paragraph_breaks_are_collapsed :
  formatAbstract None = [] /\ formatAbstract (Some []) = [] /\
  (forall abstract, ~ In LF (formatAbstract abstract)) /\
  insertBreaks None 0 (lit "Aim one. Methods two.")
    = lit "Aim one. " ++ [LF; LF] ++ lit "Methods two." /\
  formatAbstract (Some (lit "Aim one. Methods two."))
    = lit "Aim one. Methods two.".
Proof.
  split; [reflexivity|]. split; [reflexivity|]. split.
  - intros abstract H. apply formatAbstract_space in H; [discriminate H|].
    reflexivity.
  - split; vm_compute; reflexivity.
Qed.

(* ================================================================== *)
(** * The suggestion controller *)
(* ================================================================== *)

Module SearchBarProofs.

Import SearchBar.

Lemma queryEffect_TimerCurrent (s : State) : TimerCurrent (queryEffect s).
Proof.
  unfold TimerCurrent, queryEffect. simpl.
  destruct (length (trim (query s)) <? 2); simpl; congruence.
Qed.

Lemma setQuery_TimerCurrent (v : jsstring) (s : State) :
  TimerCurrent s -> TimerCurrent (setQuery v s).
Proof.
  intros H. unfold setQuery. destruct (JS.eqb v (query s)); [exact H|].
  apply queryEffect_TimerCurrent.
Qed.

Lemma step_TimerCurrent (e : Event) (s : State) :
  TimerCurrent s -> TimerCurrent (fst (step e s)).
Proof.
  intros H. destruct e as [v| |i o| |sug|]; simpl.
  - apply setQuery_TimerCurrent; exact H.
  - unfold timerFires. destruct (debounceTimer s); simpl; [|exact H].
    intros q. simpl. discriminate.
  - unfold settle. destruct (nth_error (inflight s) i); [|exact H].
    destruct o; exact H.
  - exact H.
  - apply setQuery_TimerCurrent. exact H.
  - exact H.
Qed.

Lemma run_TimerCurrent (es : list Event) :
  forall s, TimerCurrent s -> TimerCurrent (fst (run es s)).
Proof.
  induction es as [|e es IH]; intros s H; [exact H|].
  simpl. pose proof (step_TimerCurrent e s H) as H1.
  destruct (step e s) as [s1 a1]. simpl in H1.
  specialize (IH s1 H1). destruct (run es s1) as [s2 a2]. exact IH.
Qed.

Lemma reachable_TimerCurrent (initialQuery : jsstring) (es : list Event) :
  TimerCurrent (fst (run es (mount initialQuery))).
Proof. apply run_TimerCurrent. apply queryEffect_TimerCurrent. Qed.

End SearchBarProofs.

(** C2, as amended.  In every state the component reaches, a debounce
    timer that fires asks for the suggestions of the current input,
    trimmed, with limit 8: the timer of a superseded input was cleared.
    A call once in flight is not guarded: when it resolves, its results
    become the suggestion list and the panel is shown, whatever the
    input is by then. *)
Theorem C2_fresh_requests_unguarded_commits
        (initialQuery : jsstring) (es : list SearchBar.Event) :
  let s := fst (SearchBar.run es (SearchBar.mount initialQuery)) in
  (forall prefix limit,
      In (SearchBar.Autocomplete prefix limit)
         (snd (SearchBar.step SearchBar.TimerFires s)) ->
      prefix = trim (SearchBar.query s) /\ limit = 8) /\
  (forall i prefix results,
      nth_error (SearchBar.inflight s) i = Some prefix ->
      let s' := fst (SearchBar.step
                       (SearchBar.Response i (SearchBar.Resolved results)) s) in
      SearchBar.suggestions s' = results /\
      SearchBar.showSuggestions s' = true /\
      SearchBar.query s' = SearchBar.query s).
Proof.
  intros s. split.
  - intros prefix limit.
    pose proof (SearchBarProofs.reachable_TimerCurrent initialQuery es) as H.
    fold s in H. simpl. unfold SearchBar.timerFires.
    destruct (SearchBar.debounceTimer s) as [q|] eqn:E; simpl; [|tauto].
    intros [[= <- <-] | []]. rewrite (H q E). auto.
  - intros i prefix results E. simpl. unfold SearchBar.settle.
    rewrite E. simpl. auto.
Qed.

Lemma C2_unguarded_commit_witness :
  let s := fst (SearchBar.run
                  [SearchBar.InputChange (lit "co"); SearchBar.TimerFires]
                  (SearchBar.mount [])) in
  SearchBar.suggestions
    (fst (SearchBar.step
            (SearchBar.Response 0 (SearchBar.Resolved [lit "corona"])) s))
  = [lit "corona"].
Proof.
  intros s.
  apply (proj2 (C2_fresh_requests_unguarded_commits
                  [] [SearchBar.InputChange (lit "co"); SearchBar.TimerFires])
               0 (lit "co") [lit "corona"]).
  vm_compute. reflexivity.
Defined.

(** C2 as stated fails: the call for [co] is in flight when the input
    becomes [covid]; its response still replaces the suggestion list. *)
Lemma C2_stale_response_counterexample :
  let s := fst (SearchBar.run
                  [SearchBar.InputChange (lit "co"); SearchBar.TimerFires;
                   SearchBar.InputChange (lit "covid")]
                  (SearchBar.mount [])) in
  let s' := fst (SearchBar.step
                   (SearchBar.Response 0 (SearchBar.Resolved [lit "corona"]))
                   s) in
  nth_error (SearchBar.inflight s) 0 = Some (lit "co") /\
  trim (SearchBar.query s) = lit "covid" /\
  lit "co" <> trim (SearchBar.query s) /\
  SearchBar.suggestions s = [] /\
  SearchBar.suggestions s' = [lit "corona"] /\
  SearchBar.showSuggestions s' = true.
Proof.
  vm_compute. repeat split; try reflexivity. discriminate.
Qed.

(** C10.  When the input becomes a string whose trimmed length is below
    2, at mount or by a change, the suggestion list is emptied, the panel
    hidden, no call is made, and no timer is left that could make one. *)
Theorem C10_short_input_clears_and_stays_silent (v : jsstring) :
  length (trim v) < 2 ->
  (let s' := SearchBar.mount v in
   SearchBar.suggestions s' = [] /\ SearchBar.showSuggestions s' = false /\
   SearchBar.debounceTimer s' = None /\
   snd (SearchBar.step SearchBar.TimerFires s') = []) /\
  (forall s : SearchBar.State,
      JS.eqb v (SearchBar.query s) = false ->
      let r := SearchBar.step (SearchBar.InputChange v) s in
      SearchBar.query (fst r) = v /\
      SearchBar.suggestions (fst r) = [] /\
      SearchBar.showSuggestions (fst r) = false /\
      SearchBar.debounceTimer (fst r) = None /\
      snd r = [] /\
      snd (SearchBar.step SearchBar.TimerFires (fst r)) = []).
Proof.
  intros Hv. apply Nat.ltb_lt in Hv. split.
  - unfold SearchBar.mount, SearchBar.queryEffect. simpl.
    rewrite Hv. simpl. auto.
  - intros s Hq. simpl. unfold SearchBar.setQuery. rewrite Hq.
    unfold SearchBar.queryEffect. simpl. rewrite Hv. simpl. auto 7.
Qed.

Lemma C10_short_input_witness :
  let s := fst (SearchBar.run
                  [SearchBar.InputChange (lit "co"); SearchBar.TimerFires;
                   SearchBar.Response 0 (SearchBar.Resolved [lit "corona"])]
                  (SearchBar.mount [])) in
  let r := SearchBar.step (SearchBar.InputChange (lit " c ")) s in
  length (trim (lit " c ")) < 2 /\
  SearchBar.suggestions s = [lit "corona"] /\
  SearchBar.suggestions (fst r) = [] /\
  SearchBar.showSuggestions (fst r) = false /\
  snd r = [] /\
  snd (SearchBar.step SearchBar.TimerFires (fst r)) = [].
Proof.
  intros s r.
  assert (Hv : length (trim (lit " c ")) < 2) by (vm_compute; lia).
  assert (Hq : JS.eqb (lit " c ") (SearchBar.query s) = false)
    by (vm_compute; reflexivity).
  destruct (proj2 (C10_short_input_clears_and_stays_silent (lit " c ") Hv)
                  s Hq) as [_ [H1 [H2 [_ [H3 H4]]]]].
  split; [exact Hv|]. split; [vm_compute; reflexivity|].
  repeat split; assumption.
Defined.

(* ================================================================== *)
(** * The search session and the document session *)
(* ================================================================== *)

Module AppFacts.

Import App.

Lemma statusIs_spec (error : ApiError) (code : Z) :
  statusIs error code = true <-> status error = Some code.
Proof.
  unfold statusIs. destruct (status error) as [st|].
  - rewrite Z.eqb_eq. split; congruence.
  - split; discriminate.
Qed.

Lemma statusIs_false (error : ApiError) (code : Z) :
  status error <> Some code -> statusIs error code = false.
Proof.
  intros H. destruct (statusIs error code) eqn:E; [|reflexivity].
  apply statusIs_spec in E. contradiction.
Qed.

Lemma genericMessage_prefix (error : ApiError) :
  startsWith (lit "Search failed: ") (genericMessage error) = true.
Proof. unfold genericMessage. apply startsWith_app. Qed.

Lemma genericMessage_distinct (error : ApiError) :
  genericMessage error <> notReadyMessage /\
  genericMessage error <> notFoundMessage.
Proof.
  pose proof (genericMessage_prefix error) as H.
  split; intros E; rewrite E in H; vm_compute in H; discriminate H.
Qed.

Section Handlers.

Variables SearchResult Document : Type.

Lemma handleSearch_settle_loading (q : jsstring)
      (outcome : SearchResponse SearchResult + ApiError)
      (s : State SearchResult Document) :
  loading (fst (handleSearch_settle q outcome s)) = false.
Proof. destruct outcome; reflexivity. Qed.

Lemma handleSelectDocument_settle_loading
      (outcome : Document + ApiError) (s : State SearchResult Document) :
  loading (fst (handleSelectDocument_settle outcome s)) = false.
Proof. destruct outcome; reflexivity. Qed.

Lemma handleSelectDocument_frame (docId : jsstring)
      (outcome : Document + ApiError) (s : State SearchResult Document) :
  let s' := fst (handleSelectDocument_settle outcome
                   (fst (handleSelectDocument_begin docId s))) in
  results s' = results s /\ totalResults s' = totalResults s
  /\ query s' = query s.
Proof. destruct outcome; simpl; auto. Qed.

End Handlers.

End AppFacts.

(** C5.  A failed search empties the result list, sets the total to 0
    and raises one alert, whose text is fixed by the failure: the
    not-ready text for status 503, the not-found text for status 404, the
    generic text built from the error message otherwise; the three texts
    are pairwise different. *)
Theorem C5_search_failure_outcomes
        (SearchResult Document : Type) (searchQuery : jsstring)
        (error : App.ApiError) (s : App.State SearchResult Document) :
  let r := App.handleSearch_settle searchQuery (inr error) s in
  (App.results (fst r) = [] /\ App.totalResults (fst r) = 0%Z /\
   snd r = [App.Alert (App.searchErrorMessage error)]) /\
  (App.status error = Some 503%Z ->
   App.searchErrorMessage error = App.notReadyMessage) /\
  (App.status error = Some 404%Z ->
   App.searchErrorMessage error = App.notFoundMessage) /\
  (App.status error <> Some 503%Z -> App.status error <> Some 404%Z ->
   App.searchErrorMessage error = App.genericMessage error) /\
  App.notReadyMessage <> App.notFoundMessage /\
  App.genericMessage error <> App.notReadyMessage /\
  App.genericMessage error <> App.notFoundMessage.
Proof.
  intros r. split; [repeat split|].
  unfold App.searchErrorMessage.
  split; [|split; [|split; [|split]]].
  - intros H. apply AppFacts.statusIs_spec in H. rewrite H. reflexivity.
  - intros H.
    assert (H503 : App.statusIs error 503 = false)
      by (apply AppFacts.statusIs_false; rewrite H; discriminate).
    apply AppFacts.statusIs_spec in H. rewrite H503, H. reflexivity.
  - intros H1 H2.
    rewrite (AppFacts.statusIs_false _ _ H1), (AppFacts.statusIs_false _ _ H2).
    reflexivity.
  - vm_compute. discriminate.
  - apply AppFacts.genericMessage_distinct.
Qed.

Lemma C5_three_failures_witness :
  let alert (e : App.ApiError) :=
    snd (App.handleSearch_settle (lit "covid") (inr e)
           (@App.initial jsstring jsstring)) in
  alert (App.mkError (Some 503%Z) (Some (lit "Request failed with status code 503")))
    = [App.Alert App.notReadyMessage] /\
  alert (App.mkError (Some 404%Z) (Some (lit "Request failed with status code 404")))
    = [App.Alert App.notFoundMessage] /\
  alert (App.mkError None (Some (lit "Network Error")))
    = [App.Alert (lit "Search failed: Network Error")] /\
  alert (App.mkError (Some 500%Z) None)
    = [App.Alert (lit "Search failed: Unknown error")].
Proof.
  intros alert. unfold alert.
  pose proof (fun e => C5_search_failure_outcomes jsstring jsstring (lit "covid") e
                         (@App.initial jsstring jsstring)) as H.
  split; [|split; [|split]].
  - destruct (H (App.mkError (Some 503%Z)
                   (Some (lit "Request failed with status code 503"))))
      as [[_ [_ Ha]] [H503 _]].
    rewrite Ha, H503; reflexivity.
  - destruct (H (App.mkError (Some 404%Z)
                   (Some (lit "Request failed with status code 404"))))
      as [[_ [_ Ha]] [_ [H404 _]]].
    rewrite Ha, H404; reflexivity.
  - destruct (H (App.mkError None (Some (lit "Network Error"))))
      as [[_ [_ Ha]] [_ [_ [Hg _]]]].
    rewrite Ha, Hg; [reflexivity | discriminate | discriminate].
  - destruct (H (App.mkError (Some 500%Z) None))
      as [[_ [_ Ha]] [_ [_ [Hg _]]]].
    rewrite Ha, Hg; [reflexivity | discriminate | discriminate].
Defined.

(** C6, as amended.  When a search or a document load settles, with a
    response or with an error, the loading flag is false afterwards.
    The early return of an empty query does not touch the flag: it is
    false afterwards exactly when it was false before. *)
Theorem C6_loading_reset_when_settled
        (SearchResult Document : Type) (s : App.State SearchResult Document) :
  (forall q outcome,
      App.loading (fst (App.handleSearch_settle q outcome s)) = false) /\
  (forall outcome,
      App.loading (fst (App.handleSelectDocument_settle outcome s)) = false) /\
  (forall q, truthy (trim q) = false ->
      App.loading (fst (App.handleSearch_begin q s)) = App.loading s).
Proof.
  split; [|split].
  - intros q outcome. apply AppFacts.handleSearch_settle_loading.
  - intros outcome. apply AppFacts.handleSelectDocument_settle_loading.
  - intros q Hq. unfold App.handleSearch_begin. rewrite Hq. reflexivity.
Qed.

Lemma C6_loading_witness :
  App.loading (fst (App.handleSearch_begin (lit "  ")
                      (@App.initial jsstring jsstring))) = false.
Proof.
  rewrite (proj2 (proj2 (C6_loading_reset_when_settled
                           jsstring jsstring
                           (@App.initial jsstring jsstring)))).
  - reflexivity.
  - vm_compute. reflexivity.
Defined.

(** C6 as stated fails: a search for [covid] is awaiting its response
    when an empty query is submitted; that submission is over at once and
    the loading flag is still true. *)
Lemma C6_empty_query_counterexample :
  let w1 := App.run [App.Search (lit "covid")]
                    (@App.start jsstring jsstring) in
  let w2 := App.step (App.Search (lit "  ")) w1 in
  App.pending w1 = [App.PendingSearch (lit "covid")] /\
  App.pending w2 = App.pending w1 /\
  App.effects w2 = App.effects w1 /\
  App.query (App.ui w2) = [] /\
  App.loading (App.ui w2) = true.
Proof. vm_compute. repeat split; reflexivity. Qed.

(** C7.  Going back to the results drops the held document and leaves
    document mode, and changes neither the result list, nor the total,
    nor the query; opening a document, successfully or not, changes none
    of the three either, so after opening and going back they are as
    before the document was opened. *)
Theorem C7_back_to_results_frame
        (SearchResult Document : Type) (s : App.State SearchResult Document) :
  let back := App.handleBackToResults s in
  (App.selectedDoc back = None /\ App.showDocument back = false /\
   App.viewingDocument back = false) /\
  (App.results back = App.results s /\
   App.totalResults back = App.totalResults s /\
   App.query back = App.query s /\ App.loading back = App.loading s) /\
  (forall docId outcome,
      let opened :=
        fst (App.handleSelectDocument_settle outcome
               (fst (App.handleSelectDocument_begin docId s))) in
      let back' := App.handleBackToResults opened in
      App.selectedDoc back' = None /\ App.showDocument back' = false /\
      App.results back' = App.results s /\
      App.totalResults back' = App.totalResults s /\
      App.query back' = App.query s).
Proof.
  intros back. split; [repeat split|]. split; [repeat split|].
  intros docId outcome. destruct outcome; simpl; auto.
Qed.

(** C9.  A query that is empty once trimmed empties the result list,
    sets the total to 0 and the query to the empty string, and has no
    effect outside the state: no search call, no alert, nothing left
    pending. *)
Theorem C9_empty_query_clears_without_request
        (SearchResult Document : Type) (searchQuery : jsstring)
        (w : App.World SearchResult Document) :
  trim searchQuery = [] ->
  let r := App.handleSearch_begin searchQuery (App.ui w) in
  let w' := App.step (App.Search searchQuery) w in
  (App.results (fst r) = [] /\ App.totalResults (fst r) = 0%Z /\
   App.query (fst r) = [] /\ snd r = []) /\
  (App.ui w' = fst r /\ App.pending w' = App.pending w /\
   App.effects w' = App.effects w).
Proof.
  intros Hq. simpl. unfold App.handleSearch_begin. rewrite Hq. simpl.
  rewrite !app_nil_r. auto 8.
Qed.

Lemma C9_blank_query_witness :
  let w := App.run [App.Search (lit "covid");
                    App.SearchSettles 0
                      (inl (App.mkResponse (Some [lit "doc1"; lit "doc2"])
                                           (Some 57%Z) (Some (lit "covid"))))]
                   (@App.start jsstring jsstring) in
  let w' := App.step (App.Search (lit "   ")) w in
  (App.results (App.ui w) = [lit "doc1"; lit "doc2"] /\
   App.totalResults (App.ui w) = 57%Z) /\
  App.results (App.ui w') = [] /\ App.totalResults (App.ui w') = 0%Z /\
  App.query (App.ui w') = [] /\ App.effects w' = App.effects w.
Proof.
  intros w w'.
  assert (Hq : trim (lit "   ") = []) by (vm_compute; reflexivity).
  destruct (C9_empty_query_clears_without_request
              jsstring jsstring (lit "   ") w Hq)
    as [[H1 [H2 [H3 _]]] [Hu [_ He]]].
  split; [vm_compute; auto|].
  unfold w'. rewrite Hu. auto.
Defined.

(* ================================================================== *)
(** * More on [trim] *)
(* ================================================================== *)

Module TrimFacts.

Lemma trimStart_HeadOK (s : jsstring) : HeadOK (trimStart s).
Proof.
  induction s as [|c s IH]; simpl; [exact I|].
  destruct (isSpace c) eqn:E; [exact IH | exact E].
Qed.

Lemma HeadOK_trimStart (s : jsstring) : HeadOK s -> trimStart s = s.
Proof. destruct s as [|c s]; simpl; [reflexivity|]. intros ->. reflexivity. Qed.

Lemma HeadOK_prefix (x y : jsstring) : HeadOK (x ++ y) -> x <> [] -> HeadOK x.
Proof. destruct x; simpl; [congruence | auto]. Qed.

Lemma trim_HeadOK (s : jsstring) : HeadOK (trim s) /\ HeadOK (rev (trim s)).
Proof.
  unfold trim, trimEnd.
  set (t := trimStart s).
  pose proof (trimStart_HeadOK s) as Ht. fold t in Ht.
  pose proof (trimStart_HeadOK (rev t)) as Hu.
  destruct (trimStart_split (rev t)) as [a [Ha _]].
  set (u := trimStart (rev t)) in *.
  split; [|rewrite rev_involutive; exact Hu].
  destruct u as [|c u]; [exact I|].
  apply (HeadOK_prefix (rev (c :: u)) (rev a)).
  - rewrite <- rev_app_distr, <- Ha, rev_involutive. exact Ht.
  - simpl. destruct (rev u); discriminate.
Qed.

Lemma HeadOK_trim (s : jsstring) : HeadOK s -> HeadOK (rev s) -> trim s = s.
Proof.
  intros H1 H2. unfold trim, trimEnd.
  rewrite (HeadOK_trimStart s H1), (HeadOK_trimStart (rev s) H2).
  apply rev_involutive.
Qed.

Lemma trim_Trimmed (s : jsstring) : Trimmed (trim s).
Proof. destruct (trim_HeadOK s). apply HeadOK_trim; assumption. Qed.

Lemma trim_cons_space (c : char) (s : jsstring) :
  isSpace c = true -> trim (c :: s) = trim s.
Proof. intros H. unfold trim. simpl. rewrite H. reflexivity. Qed.

(** [trim] is empty exactly on white space. *)
Lemma trim_empty_iff (s : jsstring) : trim s = [] <-> stripSpace s = [].
Proof.
  split; intros H.
  - rewrite <- stripSpace_trim, H. reflexivity.
  - destruct (trim s) as [|c t] eqn:E; [reflexivity|].
    pose proof (proj1 (trim_HeadOK s)) as Hh. rewrite E in Hh. simpl in Hh.
    rewrite <- stripSpace_trim, E in H. simpl in H. rewrite Hh in H.
    discriminate H.
Qed.

Lemma truthy_trim (s : jsstring) : truthy (trim s) = truthy (stripSpace s).
Proof.
  destruct (trim s) eqn:E1; destruct (stripSpace s) eqn:E2; try reflexivity.
  - apply trim_empty_iff in E1. congruence.
  - apply trim_empty_iff in E2. congruence.
Qed.

Lemma In_trim_inv (c : char) (s : jsstring) : In c (trim s) -> In c s.
Proof.
  intros H. destruct (trim_split s) as [a [b [Hs _]]].
  rewrite Hs. rewrite !in_app_iff. auto.
Qed.

End TrimFacts.

Import TrimFacts.

(* ================================================================== *)
(** * The author list formatter *)
(* ================================================================== *)

Module AuthorsFacts.

Lemma split_cons (sep c : char) (s : jsstring) :
  split sep (c :: s) =
  if (c =? sep)%N then [] :: split sep s
  else match split sep s with
       | piece :: pieces => (c :: piece) :: pieces
       | [] => [[c]]
       end.
Proof. reflexivity. Qed.

Lemma split_nonempty (sep : char) (s : jsstring) : split sep s <> [].
Proof.
  induction s as [|c s IH]; simpl; [discriminate|].
  destruct (c =? sep)%N; [discriminate|].
  destruct (split sep s); discriminate.
Qed.

(** Joining the pieces with the separator gives the string back. *)
Lemma join_split (sep : char) (s : jsstring) : join [sep] (split sep s) = s.
Proof.
  induction s as [|c s IH]; [reflexivity|]. rewrite split_cons.
  destruct (c =? sep)%N eqn:E.
  - apply N.eqb_eq in E. subst c.
    pose proof (split_nonempty sep s) as Hne.
    destruct (split sep s) as [|p ps]; [congruence|].
    change (join [sep] ([] :: p :: ps)) with (sep :: join [sep] (p :: ps)).
    rewrite IH. reflexivity.
  - pose proof (split_nonempty sep s) as Hne.
    destruct (split sep s) as [|p ps]; [congruence|].
    destruct ps as [|p2 ps]; simpl in *; congruence.
Qed.

Lemma split_pieces_free (sep : char) (s : jsstring) :
  Forall (fun piece => ~ In sep piece) (split sep s).
Proof.
  induction s as [|c s IH]; simpl; [repeat constructor; auto|].
  destruct (c =? sep)%N eqn:E.
  - constructor; [intros [] | exact IH].
  - destruct (split sep s) as [|p ps]; [repeat constructor|].
    + intros [H | []]. subst c. rewrite N.eqb_refl in E. discriminate.
    + inversion IH; subst. constructor; [|assumption].
      intros [H | H]; [|contradiction].
      subst c. rewrite N.eqb_refl in E. discriminate.
Qed.

Lemma split_free (sep : char) (piece : jsstring) :
  ~ In sep piece -> split sep piece = [piece].
Proof.
  induction piece as [|c p IH]; intros H; [reflexivity|].
  rewrite split_cons.
  destruct (c =? sep)%N eqn:E.
  - apply N.eqb_eq in E. subst c. exfalso. apply H. left. reflexivity.
  - rewrite IH; [reflexivity|]. intros Hin. apply H. right. exact Hin.
Qed.

Lemma split_app_sep (sep : char) (piece rest : jsstring) :
  ~ In sep piece ->
  split sep (piece ++ sep :: rest) = piece :: split sep rest.
Proof.
  induction piece as [|c p IH]; intros H.
  - simpl. rewrite N.eqb_refl. reflexivity.
  - simpl app. rewrite split_cons.
    destruct (c =? sep)%N eqn:E.
    + apply N.eqb_eq in E. subst c. exfalso. apply H. left. reflexivity.
    + rewrite IH; [reflexivity|]. intros Hin. apply H. right. exact Hin.
Qed.

Lemma join_cons2 (sep p q : jsstring) (l : list jsstring) :
  join sep (p :: q :: l) = p ++ sep ++ join sep (q :: l).
Proof. reflexivity. Qed.

Lemma stripSpace_join (sep : jsstring) (l : list jsstring) :
  stripSpace (join sep l) = join (stripSpace sep) (map stripSpace l).
Proof.
  induction l as [|p l IH]; [reflexivity|].
  destruct l as [|q l]; [reflexivity|].
  rewrite join_cons2, !stripSpace_app, IH. reflexivity.
Qed.

(** The formatted list, split again: the first entry, and every other
    entry behind one space. *)
Lemma split_join_comma_space (ts : list jsstring) :
  ts <> [] -> Forall (fun t => ~ In COMMA t) ts ->
  split COMMA (join (lit ", ") ts) =
  match ts with
  | [] => []
  | t :: rest => t :: map (cons SPACE) rest
  end.
Proof.
  induction ts as [|t ts IH]; [congruence|]. intros _ Hf.
  inversion Hf as [|? ? Ht Hts]; subst.
  destruct ts as [|t2 ts].
  - simpl. apply split_free. exact Ht.
  - rewrite join_cons2.
    change (lit ", " ++ join (lit ", ") (t2 :: ts))
      with (COMMA :: SPACE :: join (lit ", ") (t2 :: ts)).
    rewrite split_app_sep by exact Ht. f_equal.
    rewrite split_cons.
    replace (SPACE =? COMMA)%N with false by reflexivity.
    rewrite IH by (try discriminate; assumption). reflexivity.
Qed.

Lemma map_trim_spaced (ts : list jsstring) :
  map trim (map (cons SPACE) ts) = map trim ts.
Proof.
  rewrite map_map. apply map_ext. intros t.
  apply trim_cons_space. reflexivity.
Qed.

Lemma trimmed_pieces_free (s : jsstring) :
  Forall (fun t => ~ In COMMA t) (map trim (split COMMA s)).
Proof.
  apply Forall_map.
  eapply Forall_impl; [|apply split_pieces_free].
  intros p Hp Hin. apply Hp. apply In_trim_inv. exact Hin.
Qed.

Lemma resplit_formatAuthors (authors : jsstring) :
  authors <> [] ->
  split COMMA (formatAuthors (Some authors)) =
  match map trim (split COMMA authors) with
  | [] => []
  | t :: rest => t :: map (cons SPACE) rest
  end.
Proof.
  intros Hne. unfold formatAuthors. apply truthy_true in Hne. rewrite Hne.
  simpl negb. cbv iota.
  apply split_join_comma_space; [|apply trimmed_pieces_free].
  pose proof (split_nonempty COMMA authors).
  destruct (split COMMA authors); [congruence | discriminate].
Qed.

Lemma retrim_formatAuthors (authors : jsstring) :
  authors <> [] ->
  map trim (split COMMA (formatAuthors (Some authors))) =
  map trim (split COMMA authors).
Proof.
  intros Hne. rewrite resplit_formatAuthors by exact Hne.
  destruct (map trim (split COMMA authors)) as [|t rest] eqn:E; [reflexivity|].
  change (map trim (t :: map (cons SPACE) rest))
    with (trim t :: map trim (map (cons SPACE) rest)).
  rewrite map_trim_spaced.
  assert (Hid : map trim (t :: rest) = t :: rest).
  { rewrite <- E, map_map. apply map_ext. intros x. apply trim_Trimmed. }
  exact Hid.
Qed.

End AuthorsFacts.

Import AuthorsFacts.

(** X1.  Formatting an author list changes white space only: the code
    units other than white space are kept in order, commas included, and
    the number of entries between commas is unchanged. *)
Theorem X1_formatAuthors_keeps_content (authors : jsstring) :
  stripSpace (formatAuthors (Some authors)) = stripSpace authors /\
  length (split COMMA (formatAuthors (Some authors))) =
  length (split COMMA authors).
Proof.
  destruct authors as [|c a]; [split; reflexivity|].
  set (s := c :: a). assert (Hne : s <> []) by discriminate. split.
  - unfold formatAuthors. simpl negb. cbv iota.
    rewrite stripSpace_join, map_map.
    rewrite (map_ext (fun x => stripSpace (trim x)) stripSpace)
      by apply stripSpace_trim.
    change (stripSpace (lit ", ")) with (stripSpace [COMMA]).
    rewrite <- stripSpace_join, join_split. reflexivity.
  - rewrite <- (length_map trim), retrim_formatAuthors by exact Hne.
    apply length_map.
Qed.

(** X2.  The formatted author list is in normal form: split at its
    commas it is the trimmed entries of the input, the first as it is and
    each other behind one space; formatting it again changes nothing; an
    absent or empty list formats to the empty string. *)
Theorem X2_formatAuthors_normal_form (authors : jsstring) :
  formatAuthors None = [] /\ formatAuthors (Some []) = [] /\
  (authors <> [] ->
   split COMMA (formatAuthors (Some authors)) =
   match map trim (split COMMA authors) with
   | [] => []
   | t :: rest => t :: map (cons SPACE) rest
   end) /\
  formatAuthors (Some (formatAuthors (Some authors))) =
  formatAuthors (Some authors).
Proof.
  split; [reflexivity|]. split; [reflexivity|].
  split; [apply resplit_formatAuthors|].
  remember (formatAuthors (Some authors)) as f eqn:E.
  destruct f as [|d f]; [reflexivity|].
  assert (Hne : authors <> []) by (intros ->; discriminate E).
  unfold formatAuthors at 1. simpl negb. cbv iota.
  rewrite E, retrim_formatAuthors by exact Hne.
  unfold formatAuthors. apply truthy_true in Hne. rewrite Hne. reflexivity.
Qed.

Lemma X2_formatAuthors_witness :
  split COMMA (formatAuthors (Some (lit "Smith J,  Doe A ,Lee K"))) =
  [lit "Smith J"; lit " Doe A"; lit " Lee K"].
Proof.
  rewrite (proj1 (proj2 (proj2 (X2_formatAuthors_normal_form
                                  (lit "Smith J,  Doe A ,Lee K")))))
    by discriminate.
  vm_compute. reflexivity.
Defined.

(* ================================================================== *)
(** * Run replacement and the display formatter *)
(* ================================================================== *)

Module RunFacts.

Lemma runLength_run (p : char -> bool) (s : jsstring) :
  Forall (fun c => p c = true) (firstn (runLength p s) s).
Proof.
  induction s as [|c s IH]; simpl; [constructor|].
  destruct (p c) eqn:E; simpl; [constructor; assumption | constructor].
Qed.

Lemma runLength_rest (p : char -> bool) (s : jsstring) :
  runLength p (skipn (runLength p s) s) = 0.
Proof.
  induction s as [|c s IH]; simpl; [reflexivity|].
  destruct (p c) eqn:E; simpl; [exact IH | rewrite E; reflexivity].
Qed.

Lemma runLength_le_length (p : char -> bool) (s : jsstring) :
  runLength p s <= length s.
Proof.
  induction s as [|c s IH]; simpl; [lia|]. destruct (p c); simpl; lia.
Qed.

Lemma runLength_app_le (p : char -> bool) (x y : jsstring) :
  runLength p x <= runLength p (x ++ y).
Proof.
  induction x as [|c x IH]; simpl; [lia|]. destruct (p c); lia.
Qed.

Lemma runLength_all (p : char -> bool) (run rest : jsstring) :
  Forall (fun c => p c = true) run ->
  runLength p (run ++ rest) = length run + runLength p rest.
Proof.
  induction 1 as [|c run Hc _ IH]; simpl; [reflexivity|].
  rewrite Hc, IH. reflexivity.
Qed.

Lemma runLength_none (p : char -> bool) (x y : jsstring) :
  x <> [] -> Forall (fun c => p c = false) x -> runLength p (x ++ y) = 0.
Proof.
  destruct x as [|c x]; [congruence|]. intros _ H.
  inversion H; subst. simpl. rewrite H2. reflexivity.
Qed.

(** ** Bounded runs *)

Lemma RunsAtMost_nil (p : char -> bool) (n : nat) : RunsAtMost p n [].
Proof. intros k. rewrite skipn_nil. simpl. lia. Qed.

Lemma RunsAtMost_cons (p : char -> bool) (n : nat) (c : char) (s : jsstring) :
  runLength p (c :: s) <= n -> RunsAtMost p n s -> RunsAtMost p n (c :: s).
Proof. intros H0 H [|k]; [exact H0 | apply H]. Qed.

Lemma RunsAtMost_tail (p : char -> bool) (n : nat) (c : char) (s : jsstring) :
  RunsAtMost p n (c :: s) -> RunsAtMost p n s.
Proof. intros H k. apply (H (S k)). Qed.

Lemma RunsAtMost_head (p : char -> bool) (n : nat) (s : jsstring) :
  RunsAtMost p n s -> runLength p s <= n.
Proof. intros H. apply (H 0). Qed.

Lemma RunsAtMost_skipn (p : char -> bool) (n k : nat) (s : jsstring) :
  RunsAtMost p n s -> RunsAtMost p n (skipn k s).
Proof. intros H j. rewrite skipn_skipn. apply H. Qed.

Lemma RunsAtMost_app_right (p : char -> bool) (n : nat) (x y : jsstring) :
  RunsAtMost p n (x ++ y) -> RunsAtMost p n y.
Proof.
  intros H. replace y with (skipn (length x) (x ++ y)).
  - apply RunsAtMost_skipn. exact H.
  - rewrite skipn_app, skipn_all, Nat.sub_diag. reflexivity.
Qed.

Lemma RunsAtMost_app_left (p : char -> bool) (n : nat) (x y : jsstring) :
  RunsAtMost p n (x ++ y) -> RunsAtMost p n x.
Proof.
  intros H k. destruct (Nat.le_gt_cases k (length x)) as [Hk | Hk].
  - specialize (H k). rewrite skipn_app in H.
    replace (k - length x) with 0 in H by lia. simpl in H.
    pose proof (runLength_app_le p (skipn k x) y). lia.
  - rewrite skipn_all2 by lia. simpl. lia.
Qed.

(** Code units outside the class, put in front, start no run. *)
Lemma RunsAtMost_app_other (p : char -> bool) (n : nat) (x y : jsstring) :
  Forall (fun c => p c = false) x -> RunsAtMost p n y ->
  RunsAtMost p n (x ++ y).
Proof.
  induction 1 as [|c x Hc _ IH]; intros Hy; [exact Hy|].
  simpl. apply RunsAtMost_cons; [|apply IH; exact Hy].
  simpl. rewrite Hc. lia.
Qed.

(** Code units of the class, put in front, make the first run longer. *)
Lemma RunsAtMost_app_run (p : char -> bool) (n : nat) (x y : jsstring) :
  Forall (fun c => p c = true) x -> length x + runLength p y <= n ->
  RunsAtMost p n y -> RunsAtMost p n (x ++ y).
Proof.
  induction 1 as [|c x Hc Hx IH]; intros Hn Hy; [exact Hy|].
  simpl app. apply RunsAtMost_cons.
  - simpl. rewrite Hc, (runLength_all p x y Hx). simpl in Hn. lia.
  - apply IH; [simpl in Hn; lia | exact Hy].
Qed.

Lemma RunsAtMost_trim (p : char -> bool) (n : nat) (s : jsstring) :
  RunsAtMost p n s -> RunsAtMost p n (trim s).
Proof.
  intros H. destruct (trim_split s) as [a [b [Hs _]]].
  rewrite Hs in H. apply RunsAtMost_app_right in H.
  apply RunsAtMost_app_left in H. exact H.
Qed.

(** ** [replaceRuns] *)

Section Replace.

Variable p : char -> bool.
Variable min : nat.
Variable repl : jsstring.
Hypothesis min_pos : 1 <= min.

Lemma replaceRuns_skip (s : jsstring) :
  forall skip,
    replaceRuns p min repl skip s = replaceRuns p min repl 0 (skipn skip s).
Proof.
  induction s as [|c s IH]; intros [|k]; try reflexivity.
  simpl skipn. rewrite <- IH. reflexivity.
Qed.

Lemma replaceRuns_long (s : jsstring) :
  min <= runLength p s ->
  replaceRuns p min repl 0 s =
  repl ++ replaceRuns p min repl 0 (skipn (runLength p s) s).
Proof.
  destruct s as [|c s]; [simpl; lia|]. intros H.
  change (replaceRuns p min repl 0 (c :: s))
    with (if min <=? runLength p (c :: s)
          then repl ++ replaceRuns p min repl (runLength p (c :: s) - 1) s
          else c :: replaceRuns p min repl 0 s).
  apply Nat.leb_le in H. rewrite H. rewrite replaceRuns_skip.
  apply Nat.leb_le in H.
  destruct (runLength p (c :: s)) as [|r] eqn:E; [lia|].
  simpl. rewrite Nat.sub_0_r. reflexivity.
Qed.

Lemma replaceRuns_short (c : char) (s : jsstring) :
  runLength p (c :: s) < min ->
  replaceRuns p min repl 0 (c :: s) = c :: replaceRuns p min repl 0 s.
Proof.
  intros H.
  change (replaceRuns p min repl 0 (c :: s))
    with (if min <=? runLength p (c :: s)
          then repl ++ replaceRuns p min repl (runLength p (c :: s) - 1) s
          else c :: replaceRuns p min repl 0 s).
  replace (min <=? runLength p (c :: s)) with false; [reflexivity|].
  symmetry. apply Nat.leb_gt. exact H.
Qed.

(** Induction along the matches of the pattern. *)
Lemma replaceRuns_ind (P : jsstring -> jsstring -> Prop) :
  P [] [] ->
  (forall run rest,
      min <= length run -> Forall (fun c => p c = true) run ->
      runLength p rest = 0 ->
      P rest (replaceRuns p min repl 0 rest) ->
      P (run ++ rest) (repl ++ replaceRuns p min repl 0 rest)) ->
  (forall c s,
      runLength p (c :: s) < min ->
      P s (replaceRuns p min repl 0 s) ->
      P (c :: s) (c :: replaceRuns p min repl 0 s)) ->
  forall s, P s (replaceRuns p min repl 0 s).
Proof.
  intros Hnil Hlong Hshort s.
  remember (length s) as n eqn:Hn.
  revert s Hn. induction n as [n IH] using lt_wf_ind. intros s Hn.
  destruct s as [|c s]; [exact Hnil|].
  destruct (Nat.le_gt_cases min (runLength p (c :: s))) as [Hl | Hl].
  - rewrite replaceRuns_long by exact Hl.
    set (r := runLength p (c :: s)) in *.
    rewrite <- (firstn_skipn r (c :: s)) at 1.
    apply Hlong.
    + rewrite length_firstn.
      pose proof (runLength_le_length p (c :: s)). fold r in H. lia.
    + apply runLength_run.
    + apply runLength_rest.
    + apply (IH (length (skipn r (c :: s)))); [|reflexivity].
      rewrite length_skipn. subst n. simpl length. lia.
  - rewrite replaceRuns_short by exact Hl.
    apply Hshort; [exact Hl|].
    apply (IH (length s)); [subst n; simpl; lia | reflexivity].
Qed.

(** Replacing runs of white space by white space keeps the rest. *)
Lemma stripSpace_replaceRuns (s : jsstring) :
  (forall c, p c = true -> isSpace c = true) -> AllSpace repl ->
  stripSpace (replaceRuns p min repl 0 s) = stripSpace s.
Proof.
  intros Hp Hr. apply replaceRuns_ind.
  - reflexivity.
  - intros run rest _ Hrun _ IH.
    rewrite !stripSpace_app, IH.
    rewrite (stripSpace_AllSpace repl Hr), (stripSpace_AllSpace run);
      [reflexivity|].
    eapply Forall_impl; [|exact Hrun]. exact Hp.
  - intros c s' _ IH. simpl. rewrite IH. reflexivity.
Qed.

(** When a long run is replaced by fewer code units of the class than
    the pattern asks for, no long run is left. *)
Lemma replaceRuns_caps (s : jsstring) :
  Forall (fun c => p c = true) repl -> length repl = min - 1 ->
  runLength p (replaceRuns p min repl 0 s) <= runLength p s /\
  RunsAtMost p (min - 1) (replaceRuns p min repl 0 s).
Proof.
  intros Hr Hlen. apply replaceRuns_ind.
  - split; [simpl; lia | apply RunsAtMost_nil].
  - intros run rest Hmin Hrun Hrest [IH1 IH2].
    assert (E : runLength p (repl ++ replaceRuns p min repl 0 rest)
                = min - 1).
    { rewrite runLength_all by exact Hr. lia. }
    split.
    + rewrite E, runLength_all by exact Hrun. lia.
    + apply RunsAtMost_app_run; [exact Hr | lia | exact IH2].
  - intros c s' Hshort [IH1 IH2]. split.
    + simpl. destruct (p c); lia.
    + apply RunsAtMost_cons; [|exact IH2].
      simpl in *. destruct (p c); lia.
Qed.

(** Runs of another class are not made longer, provided the replacement
    is not empty and outside that class. *)
Lemma replaceRuns_keeps (q : char -> bool) (n : nat) (s : jsstring) :
  repl <> [] -> Forall (fun c => q c = false) repl ->
  RunsAtMost q n s ->
  runLength q (replaceRuns p min repl 0 s) <= runLength q s /\
  RunsAtMost q n (replaceRuns p min repl 0 s).
Proof.
  intros Hne Hr. apply (replaceRuns_ind
    (fun s o => RunsAtMost q n s ->
                runLength q o <= runLength q s /\ RunsAtMost q n o)).
  - intros _. split; [lia | apply RunsAtMost_nil].
  - intros run rest _ _ _ IH H.
    apply RunsAtMost_app_right in H. destruct (IH H) as [_ IH2]. split.
    + rewrite runLength_none by assumption. lia.
    + apply RunsAtMost_app_other; assumption.
  - intros c s' _ IH H.
    destruct (IH (RunsAtMost_tail q n c s' H)) as [IH1 IH2].
    pose proof (RunsAtMost_head q n _ H) as H0.
    assert (Hle : runLength q (c :: replaceRuns p min repl 0 s')
                  <= runLength q (c :: s'))
      by (simpl; destruct (q c); lia).
    split; [exact Hle|].
    apply RunsAtMost_cons; [lia | exact IH2].
Qed.

End Replace.

(** ** [breakSentences] *)

Lemma breakSentences_skip (s : jsstring) :
  forall skip, breakSentences skip s = breakSentences 0 (skipn skip s).
Proof.
  induction s as [|c s IH]; intros [|k]; try reflexivity.
  simpl skipn. rewrite <- IH. reflexivity.
Qed.

Lemma sentenceGap_Some (s : jsstring) (n : nat) :
  sentenceGap s = Some n ->
  exists gap u rest,
    s = gap ++ u :: rest /\ gap <> [] /\ length gap = n /\ AllSpace gap /\
    isUpper u = true.
Proof.
  unfold sentenceGap.
  destruct (1 <=? runLength isSpace s) eqn:E1; simpl; [|discriminate].
  destruct (nth_error s (runLength isSpace s)) as [u|] eqn:E2; [|discriminate].
  destruct (isUpper u) eqn:E3; [|discriminate]. intros [= <-].
  apply Nat.leb_le in E1.
  apply nth_error_split in E2 as [gap [rest [Hs Hl]]].
  exists gap, u, rest. repeat split; try assumption.
  - intros ->. simpl in Hl. lia.
  - pose proof (runLength_run isSpace s) as H. rewrite <- Hl in H.
    rewrite Hs in H.
    rewrite firstn_app, firstn_all, Nat.sub_diag in H. simpl in H.
    rewrite app_nil_r in H. exact H.
Qed.

(** Induction along the matches of the sentence pattern. *)
Lemma breakSentences_ind (P : jsstring -> jsstring -> Prop) :
  P [] [] ->
  (forall c gap u rest,
      isSentenceEnd c = true -> gap <> [] -> AllSpace gap ->
      isUpper u = true ->
      P (u :: rest) (breakSentences 0 (u :: rest)) ->
      P (c :: gap ++ u :: rest)
        (c :: LF :: LF :: breakSentences 0 (u :: rest))) ->
  (forall c s,
      P s (breakSentences 0 s) -> P (c :: s) (c :: breakSentences 0 s)) ->
  forall s, P s (breakSentences 0 s).
Proof.
  intros Hnil Hgap Hstep s.
  remember (length s) as n eqn:Hn.
  revert s Hn. induction n as [n IH] using lt_wf_ind. intros s Hn.
  destruct s as [|c s]; [exact Hnil|].
  assert (Hplain : P (c :: s) (c :: breakSentences 0 s)).
  { apply Hstep. apply (IH (length s)); [subst n; simpl; lia | reflexivity]. }
  change (breakSentences 0 (c :: s))
    with (if isSentenceEnd c
          then match sentenceGap s with
               | Some n => c :: LF :: LF :: breakSentences n s
               | None => c :: breakSentences 0 s
               end
          else c :: breakSentences 0 s).
  destruct (isSentenceEnd c) eqn:Ec; [|exact Hplain].
  destruct (sentenceGap s) as [k|] eqn:Eg; [|exact Hplain].
  destruct (sentenceGap_Some s k Eg) as [gap [u [rest [Hs [Hne [Hl [Hsp Hu]]]]]]].
  rewrite breakSentences_skip. subst s k.
  rewrite skipn_app, skipn_all, Nat.sub_diag. simpl skipn. simpl app.
  apply Hgap; try assumption.
  apply (IH (length (u :: rest))); [|reflexivity].
  subst n. simpl. rewrite length_app. simpl. lia.
Qed.

Lemma isUpper_not_space (u : char) : isUpper u = true -> isSpace u = false.
Proof.
  unfold isUpper. rewrite andb_true_iff, !N.leb_le. intros [H1 H2].
  unfold isSpace, isWhiteSpace, isLineTerminator.
  repeat match goal with
         | |- context [(u =? ?k)%N] =>
             replace (u =? k)%N with false
               by (symmetry; apply N.eqb_neq; lia)
         end.
  replace (0x2000 <=? u)%N with false by (symmetry; apply N.leb_gt; lia).
  reflexivity.
Qed.

Lemma stripSpace_breakSentences (s : jsstring) :
  stripSpace (breakSentences 0 s) = stripSpace s.
Proof.
  apply breakSentences_ind.
  - reflexivity.
  - intros c gap u rest _ _ Hsp _ IH.
    change (c :: LF :: LF :: breakSentences 0 (u :: rest))
      with ([c] ++ [LF; LF] ++ breakSentences 0 (u :: rest)).
    change (c :: gap ++ u :: rest) with ([c] ++ gap ++ u :: rest).
    rewrite !stripSpace_app, IH, (stripSpace_AllSpace gap Hsp). reflexivity.
  - intros c s' IH. simpl. rewrite IH. reflexivity.
Qed.

Lemma isBlank_space (c : char) : isBlank c = true -> isSpace c = true.
Proof.
  unfold isBlank. rewrite orb_true_iff, !N.eqb_eq. intros [-> | ->]; reflexivity.
Qed.

Lemma isLF_space (c : char) : isLF c = true -> isSpace c = true.
Proof. unfold isLF. rewrite N.eqb_eq. intros ->. reflexivity. Qed.

Lemma breakSentences_keeps_blanks (n : nat) (s : jsstring) :
  RunsAtMost isBlank n s ->
  runLength isBlank (breakSentences 0 s) <= runLength isBlank s /\
  RunsAtMost isBlank n (breakSentences 0 s).
Proof.
  apply (breakSentences_ind
    (fun s o => RunsAtMost isBlank n s ->
                runLength isBlank o <= runLength isBlank s /\
                RunsAtMost isBlank n o)).
  - intros _. split; [lia | apply RunsAtMost_nil].
  - intros c gap u rest Hc _ _ _ IH H.
    assert (Hcb : isBlank c = false).
    { unfold isSentenceEnd in Hc. unfold isBlank.
      rewrite !orb_true_iff, !N.eqb_eq in Hc.
      destruct Hc as [[-> | ->] | ->]; reflexivity. }
    change (c :: gap ++ u :: rest) with ((c :: gap) ++ u :: rest) in H.
    apply RunsAtMost_app_right in H. destruct (IH H) as [_ IH2].
    split; [simpl; rewrite Hcb; lia|].
    apply (RunsAtMost_app_other isBlank n [c; LF; LF]); [|exact IH2].
    repeat constructor. exact Hcb.
  - intros c s' IH H.
    destruct (IH (RunsAtMost_tail isBlank n c s' H)) as [IH1 IH2].
    pose proof (RunsAtMost_head isBlank n _ H) as H0.
    assert (Hle : runLength isBlank (c :: breakSentences 0 s')
                  <= runLength isBlank (c :: s'))
      by (simpl; destruct (isBlank c); lia).
    split; [exact Hle|].
    apply RunsAtMost_cons; [lia | exact IH2].
Qed.

End RunFacts.

Import RunFacts.

(* ================================================================== *)
(** * The display formatters and the document page *)
(* ================================================================== *)

Module DisplayFacts.

Lemma stripSpace_insertBreaks (s : jsstring) :
  forall prev skip, stripSpace (insertBreaks prev skip s) = stripSpace s.
Proof.
  induction s as [|c s IH]; intros prev skip; [reflexivity|].
  simpl insertBreaks. destruct skip as [|k].
  - destruct (keywordAt prev (c :: s)).
    + change (stripSpace (LF :: LF :: c :: insertBreaks (Some c) (n - 1) s))
        with (stripSpace (c :: insertBreaks (Some c) (n - 1) s)).
      simpl. rewrite IH. reflexivity.
    + simpl. rewrite IH. reflexivity.
  - simpl. rewrite IH. reflexivity.
Qed.

Lemma stripSpace_collapseSpaces (s : jsstring) :
  forall inRun, stripSpace (collapseSpaces inRun s) = stripSpace s.
Proof.
  induction s as [|c s IH]; intros inRun; [reflexivity|].
  simpl. destruct (isSpace c) eqn:E.
  - rewrite stripSpace_app, IH. destruct inRun; reflexivity.
  - simpl. rewrite E, IH. reflexivity.
Qed.

(** After the collapse no two white-space code units are neighbours. *)
Lemma collapseSpaces_single (s : jsstring) :
  forall inRun,
    RunsAtMost isSpace 1 (collapseSpaces inRun s) /\
    (inRun = true -> runLength isSpace (collapseSpaces inRun s) = 0).
Proof.
  induction s as [|c s IH]; intros inRun.
  - split; [apply RunsAtMost_nil | reflexivity].
  - simpl. destruct (isSpace c) eqn:E.
    + destruct (IH true) as [IH1 IH2]. destruct inRun; simpl.
      * split; [exact IH1 | intros _; apply IH2; reflexivity].
      * split; [|discriminate].
        apply RunsAtMost_cons; [|exact IH1].
        simpl. rewrite (IH2 eq_refl).
        replace (isSpace SPACE) with true by reflexivity. lia.
    + destruct (IH false) as [IH1 _]. split.
      * apply RunsAtMost_cons; [|exact IH1]. simpl. rewrite E. lia.
      * intros _. simpl. rewrite E. reflexivity.
Qed.

Lemma truthy_formatAbstract (a : jsstring) :
  truthy (formatAbstract (Some a)) = truthy (stripSpace a).
Proof.
  unfold formatAbstract. destruct a as [|c a]; [reflexivity|].
  simpl negb. cbv iota.
  rewrite truthy_trim, stripSpace_collapseSpaces, stripSpace_insertBreaks.
  reflexivity.
Qed.

Lemma stripSpace_formatTextForDisplay (t : jsstring) :
  stripSpace (formatTextForDisplay (Some t)) = stripSpace t.
Proof.
  unfold formatTextForDisplay. destruct (truthy t) eqn:E; simpl negb; cbv iota.
  - rewrite stripSpace_trim.
    rewrite stripSpace_replaceRuns;
      [| lia | exact isLF_space | repeat constructor].
    rewrite stripSpace_breakSentences.
    apply stripSpace_replaceRuns;
      [lia | exact isBlank_space | repeat constructor].
  - apply truthy_false in E. subst t. reflexivity.
Qed.

Lemma truthy_formatTextForDisplay (t : jsstring) :
  truthy (formatTextForDisplay (Some t)) = truthy (stripSpace t).
Proof.
  rewrite <- stripSpace_formatTextForDisplay.
  unfold formatTextForDisplay. destruct (truthy t); simpl negb; cbv iota.
  - rewrite truthy_trim, stripSpace_trim. reflexivity.
  - reflexivity.
Qed.

Lemma truthy_stripSpace_le (t : jsstring) :
  truthy (stripSpace t) = true -> truthy t = true.
Proof. destruct t; [discriminate | reflexivity]. Qed.

End DisplayFacts.

Import DisplayFacts.

(** X3.  The display formatter changes white space only: the code units
    other than white space come out in the same order; an absent, empty
    or all-blank text formats to the empty string. *)
Theorem X3_formatTextForDisplay_keeps_content (text : jsstring) :
  formatTextForDisplay None = [] /\
  stripSpace (formatTextForDisplay (Some text)) = stripSpace text /\
  (formatTextForDisplay (Some text) = [] <-> stripSpace text = []).
Proof.
  split; [reflexivity|]. split; [apply stripSpace_formatTextForDisplay|].
  pose proof (truthy_formatTextForDisplay text) as H.
  split; intros E.
  - rewrite E in H. simpl in H. symmetry in H. apply truthy_false. exact H.
  - rewrite E in H. simpl in H. apply truthy_false. exact H.
Qed.

(** X4.  The displayed text is in normal form: no white space at either
    end, never two blanks (space or tab) in a row, never more than three
    line feeds in a row. *)
Theorem X4_formatTextForDisplay_normal_form (text : option jsstring) :
  Trimmed (formatTextForDisplay text) /\
  RunsAtMost isBlank 1 (formatTextForDisplay text) /\
  RunsAtMost isLF 3 (formatTextForDisplay text).
Proof.
  unfold formatTextForDisplay.
  destruct text as [t|];
    [|split; [reflexivity | split; apply RunsAtMost_nil]].
  destruct (truthy t); simpl negb; cbv iota;
    [|split; [reflexivity | split; apply RunsAtMost_nil]].
  split; [apply trim_Trimmed|].
  set (o1 := replaceRuns isBlank 2 [SPACE] 0 t).
  set (o2 := breakSentences 0 o1).
  assert (H1 : RunsAtMost isBlank 1 o1).
  { apply (replaceRuns_caps isBlank 2 [SPACE]);
      [lia | repeat constructor | reflexivity]. }
  assert (H2 : RunsAtMost isBlank 1 o2)
    by (apply breakSentences_keeps_blanks; exact H1).
  split; apply RunsAtMost_trim.
  - apply (replaceRuns_keeps isLF 4 [LF; LF; LF]);
      [lia | discriminate | repeat constructor | exact H2].
  - apply (replaceRuns_caps isLF 4 [LF; LF; LF]);
      [lia | repeat constructor | reflexivity].
Qed.

(** X5.  The abstract formatter changes white space only, and its result
    is in normal form: no white space at either end, and never two
    white-space code units in a row. *)
Theorem X5_formatAbstract_normal_form (abstract : jsstring) :
  stripSpace (formatAbstract (Some abstract)) = stripSpace abstract /\
  Trimmed (formatAbstract (Some abstract)) /\
  RunsAtMost isSpace 1 (formatAbstract (Some abstract)).
Proof.
  unfold formatAbstract. destruct (truthy abstract) eqn:E;
    simpl negb; cbv iota.
  - split; [|split].
    + rewrite stripSpace_trim, stripSpace_collapseSpaces.
      apply stripSpace_insertBreaks.
    + apply trim_Trimmed.
    + apply RunsAtMost_trim. apply collapseSpaces_single.
  - apply truthy_false in E. subst abstract.
    split; [reflexivity|]. split; [reflexivity | apply RunsAtMost_nil].
Qed.

(** X6.  On the document page the Abstract panel and the Key Sections
    panel are there exactly when the field holds a code unit other than
    white space, and then show the formatted field. *)
Theorem X6_abstract_and_sections_panels
        (number : Type) (document : Types.Document number) :
  view_abstract (DocumentViewer document) =
    match Types.doc_abstract document with
    | Some a => if truthy (stripSpace a)
                then Some (formatAbstract (Some a)) else None
    | None => None
    end /\
  view_sections (DocumentViewer document) =
    match Types.sections document with
    | Some t => if truthy (stripSpace t)
                then Some (formatTextForDisplay (Some t)) else None
    | None => None
    end.
Proof.
  unfold DocumentViewer. simpl. unfold whenTruthy. split.
  - destruct (Types.doc_abstract document) as [a|]; [|reflexivity].
    rewrite truthy_formatAbstract. reflexivity.
  - destruct (Types.sections document) as [t|]; [|reflexivity].
    rewrite truthy_formatTextForDisplay. reflexivity.
Qed.

(** X7.  The Full Paper Content panel is there exactly when the raw text
    is a non-empty string, and always decodes the raw text, never the
    display-formatted one.  The notice that no text is available is there
    exactly when the text is absent or empty and the reference list is
    absent; with an empty text and a reference list that is present but
    empty, the page has neither panel nor notice. *)
Theorem X7_full_text_panel_and_notice
        (number : Type) (document : Types.Document number) :
  view_fullText (DocumentViewer document) =
    (if truthy_opt (Types.text document)
     then Some (formatTextWithSections (Types.text document))
     else None) /\
  view_unavailable (DocumentViewer document) =
    (negb (truthy_opt (Types.text document))
     && match Types.references document with
        | Some _ => false
        | None => true
        end) /\
  (truthy_opt (Types.text document) = false ->
   Types.references document = Some [] ->
   view_fullText (DocumentViewer document) = None /\
   view_references (DocumentViewer document) = None /\
   view_unavailable (DocumentViewer document) = false).
Proof.
  unfold DocumentViewer. simpl.
  assert (Hf : truthy (formatTextForDisplay (Types.text document)) = true ->
               truthy_opt (Types.text document) = true).
  { destruct (Types.text document) as [t|]; [|discriminate].
    rewrite truthy_formatTextForDisplay. apply truthy_stripSpace_le. }
  destruct (truthy_opt (Types.text document)) eqn:Et.
  - rewrite orb_true_r. split; [|split; [|discriminate]].
    + destruct (Types.text document) as [t|]; [|discriminate].
      simpl in Et. unfold orElse. rewrite Et. reflexivity.
    + rewrite andb_false_r. reflexivity.
  - destruct (truthy (formatTextForDisplay (Types.text document))) eqn:Ef;
      [specialize (Hf eq_refl); discriminate|].
    split; [reflexivity|]. split; [reflexivity|].
    intros _ ->. auto.
Qed.

Lemma X7_empty_text_empty_references_witness :
  let document :=
    Types.mkDocument (lit "p1") (Types.mkMetadata None None None None)
                     None None (Some []) (Some (@nil (Types.Reference Z))) in
  view_fullText (DocumentViewer document) = None /\
  view_references (DocumentViewer document) = None /\
  view_unavailable (DocumentViewer document) = false.
Proof.
  intros document.
  apply (proj2 (proj2 (X7_full_text_panel_and_notice Z document)));
    reflexivity.
Defined.

(* ================================================================== *)
(** * More on the section decoder *)
(* ================================================================== *)

Module DecoderMore.

#[local] Opaque SECTION_START SECTION_END.

(** The three ways a non-empty body decodes. *)
Lemma decode_cases (text : jsstring) :
  text <> [] ->
  formatTextWithSections (Some text) = [Paragraph text] \/
  exists before ms,
    text = before ++ render ms /\ WellMarked ms /\ ms <> [] /\
    specDecode before ms <> [] /\
    formatTextWithSections (Some text) = specDecode before ms.
Proof.
  intros Hne. destruct (decompose text) as [before [ms [Ht [Hg Hw]]]].
  destruct ms as [|m ms].
  - left. simpl in Ht. rewrite app_nil_r in Ht. subst before.
    apply decode_unmarked; assumption.
  - assert (Hm : m :: ms <> []) by discriminate.
    pose proof (decode_render before (m :: ms) Hm Hg Hw) as E.
    rewrite <- Ht in E.
    destruct (specDecode before (m :: ms)) as [|g parts] eqn:Es.
    + left. exact E.
    + right. exists before, (m :: ms).
      repeat split; try assumption.
      * rewrite Es. discriminate.
      * rewrite Es. exact E.
Qed.

Lemma In_specDecode_text (g : Segment) (before : jsstring) (ms : list marker) :
  In g (specDecode before ms) -> segText g <> [].
Proof.
  unfold specDecode. rewrite in_app_iff, in_flat_map.
  intros [H | [[cap body] [_ H]]].
  - destruct (trim before) eqn:E; simpl in H; [tauto|].
    destruct H as [<- | []]. simpl. discriminate.
  - unfold specMarker in H. simpl fst in H. simpl snd in H.
    rewrite in_app_iff in H. destruct H as [H | H].
    + destruct (trim cap) eqn:E; simpl in H; [tauto|].
      destruct H as [<- | []]. simpl. discriminate.
    + destruct (trim body) eqn:E; simpl in H; [tauto|].
      destruct H as [<- | []]. simpl. discriminate.
Qed.

Lemma In_specDecode_heading (h before : jsstring) (ms : list marker) :
  In (Heading h) (specDecode before ms) ->
  exists cap body, In (cap, body) ms /\ h = trim cap.
Proof.
  unfold specDecode. rewrite in_app_iff, in_flat_map.
  intros [H | [[cap body] [Hin H]]].
  - destruct (trim before); simpl in H; [tauto|].
    destruct H as [H | []]. discriminate H.
  - unfold specMarker in H. simpl fst in H. simpl snd in H.
    rewrite in_app_iff in H. destruct H as [H | H].
    + destruct (trim cap) eqn:E; simpl in H; [tauto|].
      destruct H as [[= <-] | []]. exists cap, body. auto.
    + destruct (trim body); simpl in H; [tauto|].
      destruct H as [H | []]. discriminate H.
Qed.

Lemma WellMarked_In_cap (ms : list marker) (cap body : jsstring) :
  WellMarked ms -> In (cap, body) ms -> NoLineBreak cap.
Proof.
  induction ms as [|[cap' body'] ms IH]; simpl; [tauto|].
  intros [Hn [_ [_ Hw]]] [[= -> ->] | Hin]; auto.
Qed.

Lemma NoLineBreak_trim (cap : jsstring) :
  NoLineBreak cap -> NoLineBreak (trim cap).
Proof.
  unfold NoLineBreak. rewrite !Forall_forall.
  intros H c Hc. apply H. apply In_trim_inv. exact Hc.
Qed.

Lemma sectionsOf_in_order (ms : list marker) :
  forall off from len,
    from <= off -> off + length (render ms) <= len ->
    SectionsInOrder from len (sectionsOf off ms).
Proof.
  induction ms as [|[cap body] ms IH]; intros off from len H1 H2;
    [exact I|].
  rewrite length_render_cons in H2. simpl.
  repeat split; try lia. apply IH; lia.
Qed.

Lemma sectionsOf_span (ms : list marker) :
  forall pre,
    WellMarked ms ->
    Forall (fun sec =>
              exists cap,
                substring (pre ++ render ms) (startIndex sec) (endIndex sec)
                = SECTION_START ++ cap ++ SECTION_END
                /\ name sec = trim cap /\ NoLineBreak cap)
           (sectionsOf (length pre) ms).
Proof.
  induction ms as [|[cap body] ms IH]; intros pre Hw; [constructor|].
  destruct Hw as [Hn [_ [_ Hw]]]. simpl sectionsOf. simpl render.
  constructor.
  - exists cap. simpl. split; [|auto].
    replace (length pre + 17 + length cap + 15)
      with (length pre + length (SECTION_START ++ cap ++ SECTION_END))
      by (rewrite !length_app, length_START, length_END; lia).
    replace (pre ++ SECTION_START ++ cap ++ SECTION_END ++ body ++ render ms)
      with (pre ++ (SECTION_START ++ cap ++ SECTION_END) ++ body ++ render ms)
      by (rewrite <- !app_assoc; reflexivity).
    apply substring_middle.
  - specialize (IH (pre ++ SECTION_START ++ cap ++ SECTION_END ++ body) Hw).
    rewrite <- !app_assoc in IH.
    rewrite !length_app, length_START, length_END in IH.
    replace (length pre + 17 + length cap + 15 + length body)
      with (length pre + (17 + (length cap + (15 + length body)))) by lia.
    exact IH.
Qed.

End DecoderMore.

Import DecoderMore.

(** X8.  The decoder returns no segment exactly for an absent or empty
    body, and never emits a Heading or a Paragraph with an empty text. *)
Theorem X8_decoder_segments_nonempty (text : option jsstring) :
  (formatTextWithSections text = [] <-> truthy_opt text = false) /\
  Forall (fun g => segText g <> []) (formatTextWithSections text).
Proof.
  destruct text as [t|]; [|split; [split; reflexivity | constructor]].
  destruct t as [|c t]; [split; [split; reflexivity | constructor]|].
  assert (Hne : c :: t <> []) by discriminate.
  destruct (decode_cases (c :: t) Hne)
    as [E | [before [ms [_ [_ [_ [Hs E]]]]]]]; rewrite E.
  - split; [split; discriminate|]. repeat constructor. discriminate.
  - split.
    + split; [intros H; contradiction | discriminate].
    + apply Forall_forall. intros g. apply In_specDecode_text.
Qed.

(** X9.  Every Heading the decoder emits is a trimmed, non-empty name on
    one line: it has no white space at either end and no line
    terminator. *)
Theorem X9_headings_are_single_line_names (text h : jsstring) :
  In (Heading h) (formatTextWithSections (Some text)) ->
  h <> [] /\ Trimmed h /\ NoLineBreak h.
Proof.
  destruct text as [|c t]; [intros []|].
  assert (Hne : c :: t <> []) by discriminate.
  destruct (decode_cases (c :: t) Hne)
    as [E | [before [ms [_ [Hw [_ [_ E]]]]]]]; rewrite E.
  - intros [H | []]. discriminate H.
  - intros Hin. split.
    + apply (In_specDecode_text (Heading h) before ms Hin).
    + destruct (In_specDecode_heading h before ms Hin)
        as [cap [body [Hm ->]]].
      split; [apply trim_Trimmed|].
      apply NoLineBreak_trim. eapply WellMarked_In_cap; eassumption.
Qed.

Lemma X9_heading_witness :
  Trimmed (lit "Key  Results") /\ NoLineBreak (lit "Key  Results").
Proof.
  apply (X9_headings_are_single_line_names
           (lit "intro ##SECTION_START##  Key  Results ##SECTION_END## text")
           (lit "Key  Results")).
  vm_compute. auto.
Defined.

(** X10.  The sections the first pass finds come in text order without
    overlap and inside the text, and each spans exactly one marker: the
    opening token, a capture without line terminator, the closing token;
    its name is the trimmed capture. *)
Theorem X10_first_pass_sections (text : jsstring) :
  SectionsInOrder 0 (length text) (findSections text) /\
  Forall (fun sec =>
            exists cap,
              substring text (startIndex sec) (endIndex sec)
              = SECTION_START ++ cap ++ SECTION_END
              /\ name sec = trim cap /\ NoLineBreak cap)
         (findSections text).
Proof.
  destruct (decompose text) as [before [ms [Ht [Hg Hw]]]]. subst text.
  rewrite findSections_render by assumption. split.
  - apply sectionsOf_in_order; [lia | rewrite length_app; lia].
  - apply sectionsOf_span. exact Hw.
Qed.

(** X11.  The loop of the first pass ends because the pattern finds no
    further match, never for lack of iterations: any bound above the
    length of the text gives the same section list. *)
Theorem X11_first_pass_terminates (text : jsstring) (fuel : nat) :
  length text < fuel ->
  collectSections fuel text 0 = findSections text.
Proof.
  intros Hf. destruct (decompose text) as [before [ms [Ht [Hg Hw]]]].
  subst text. rewrite findSections_render by assumption.
  apply (collectSections_render ms [] before fuel); assumption.
Qed.

Lemma X11_first_pass_witness :
  collectSections 1000 (lit "a ##SECTION_START##H##SECTION_END## b") 0 =
  findSections (lit "a ##SECTION_START##H##SECTION_END## b").
Proof.
  apply X11_first_pass_terminates. vm_compute. lia.
Defined.

(* ================================================================== *)
(** * More on the suggestion controller *)
(* ================================================================== *)

Module SearchBarMore.

Import SearchBar.

Lemma queryEffect_armed (s : State) : TimerArmedWell (queryEffect s).
Proof.
  unfold TimerArmedWell, queryEffect. simpl.
  destruct (length (trim (query s)) <? 2) eqn:E; simpl; [discriminate|].
  intros q [= <-]. apply Nat.ltb_ge in E. auto.
Qed.

Lemma setQuery_armed (v : jsstring) (s : State) :
  TimerArmedWell s -> TimerArmedWell (setQuery v s).
Proof.
  intros H. unfold setQuery. destruct (JS.eqb v (query s)); [exact H|].
  apply queryEffect_armed.
Qed.

Lemma setQuery_changed_long (v : jsstring) (s : State) :
  JS.eqb v (query s) = false -> 2 <= length (trim v) ->
  setQuery v s =
  mkState v (suggestions s) (showSuggestions s) true (Some v) (inflight s).
Proof.
  intros Hq Hl. unfold setQuery. rewrite Hq. unfold queryEffect. simpl.
  replace (length (trim v) <? 2) with false
    by (symmetry; apply Nat.ltb_ge; exact Hl).
  reflexivity.
Qed.

Lemma setQuery_changed_short (v : jsstring) (s : State) :
  JS.eqb v (query s) = false -> length (trim v) < 2 ->
  setQuery v s =
  mkState v [] false (isLoadingSuggestions s) None (inflight s).
Proof.
  intros Hq Hl. unfold setQuery. rewrite Hq. unfold queryEffect. simpl.
  replace (length (trim v) <? 2) with true
    by (symmetry; apply Nat.ltb_lt; exact Hl).
  reflexivity.
Qed.

Lemma step_armed (e : Event) (s : State) :
  TimerArmedWell s ->
  TimerArmedWell (fst (step e s)) /\ Forall WellFormedAction (snd (step e s)).
Proof.
  intros H. destruct e as [v| |i o| |sug|]; simpl.
  - split; [apply setQuery_armed; exact H | constructor].
  - unfold timerFires. destruct (debounceTimer s) as [q|] eqn:E; simpl.
    + split; [intros q'; simpl; discriminate|].
      destruct (H q E) as [_ Hl].
      repeat constructor; [exact Hl | apply trim_Trimmed].
    + split; [exact H | constructor].
  - split; [|constructor]. unfold settle.
    destruct (nth_error (inflight s) i); [|exact H]. destruct o; exact H.
  - split; [exact H | repeat constructor].
  - split; [apply setQuery_armed; exact H | repeat constructor].
  - split; [exact H | constructor].
Qed.

Lemma run_armed (es : list Event) :
  forall s,
    TimerArmedWell s ->
    TimerArmedWell (fst (run es s)) /\ Forall WellFormedAction (snd (run es s)).
Proof.
  induction es as [|e es IH]; intros s H; [split; [exact H | constructor]|].
  simpl. destruct (step_armed e s H) as [H1 H2].
  destruct (step e s) as [s1 a1]. simpl in H1, H2.
  destruct (IH s1 H1) as [H3 H4]. destruct (run es s1) as [s2 a2].
  simpl in *. split; [exact H3 | apply Forall_app; auto].
Qed.

Lemma run_app (es1 es2 : list Event) (s : State) :
  run (es1 ++ es2) s =
  (fst (run es2 (fst (run es1 s))),
   snd (run es1 s) ++ snd (run es2 (fst (run es1 s)))).
Proof.
  revert s. induction es1 as [|e es1 IH]; intros s; simpl.
  - destruct (run es2 s); reflexivity.
  - destruct (step e s) as [s1 a1]. rewrite IH.
    destruct (run es1 s1) as [s2 a2]. simpl.
    destruct (run es2 s2) as [s3 a3]. simpl. rewrite app_assoc. reflexivity.
Qed.

Lemma run_typing_silent (vs : list jsstring) (s : State) :
  snd (run (map InputChange vs) s) = [].
Proof.
  revert s. induction vs as [|v vs IH]; intros s; [reflexivity|].
  simpl. specialize (IH (setQuery v s)).
  destruct (run (map InputChange vs) (setQuery v s)). exact IH.
Qed.

(** Nothing armed and nothing in flight: only a new input can change
    that. *)
Lemma quiet_step (e : Event) (s : State) :
  changesInput e = false ->
  debounceTimer s = None -> inflight s = [] ->
  let s' := fst (step e s) in
  debounceTimer s' = None /\ inflight s' = [] /\
  isLoadingSuggestions s' = isLoadingSuggestions s /\
  query s' = query s /\ snd (step e s) = filter (fun a =>
    match a with OnSearch _ => true | Autocomplete _ _ => false end)
    (snd (step e s)).
Proof.
  intros He Ht Hi. destruct e as [v| |i o| |sug|]; try discriminate He;
    simpl.
  - unfold timerFires. rewrite Ht. simpl. auto.
  - unfold settle. rewrite Hi. destruct i; simpl; auto.
  - auto.
  - auto.
Qed.

Lemma quiet_run (es : list Event) :
  forall s,
    forallb (fun e => negb (changesInput e)) es = true ->
    debounceTimer s = None -> inflight s = [] ->
    isLoadingSuggestions (fst (run es s)) = isLoadingSuggestions s /\
    forallb (fun a => match a with
                      | OnSearch _ => true
                      | Autocomplete _ _ => false
                      end) (snd (run es s)) = true.
Proof.
  induction es as [|e es IH]; intros s Hq Ht Hi; [split; reflexivity|].
  simpl in Hq. apply andb_true_iff in Hq as [He Hq].
  apply negb_true_iff in He.
  destruct (quiet_step e s He Ht Hi) as [H1 [H2 [H3 [_ H5]]]].
  simpl. destruct (step e s) as [s1 a1]. simpl in *.
  destruct (IH s1 Hq H1 H2) as [H6 H7].
  destruct (run es s1) as [s2 a2]. simpl in *. split; [congruence|].
  rewrite forallb_app, H7, andb_true_r. rewrite H5.
  apply forallb_forall. intros a Ha. apply filter_In in Ha. tauto.
Qed.

End SearchBarMore.

(** X12.  In every interleaving of events after mounting, every
    autocomplete call the component makes asks for 8 suggestions for a
    prefix that is trimmed and at least 2 code units long. *)
Theorem X12_autocomplete_calls_well_formed
        (initialQuery : jsstring) (es : list SearchBar.Event) :
  Forall SearchBar.WellFormedAction
         (snd (SearchBar.run es (SearchBar.mount initialQuery))).
Proof.
  apply SearchBarMore.run_armed. apply SearchBarMore.queryEffect_armed.
Qed.

(** X13.  Debounce: after any burst of input changes whose last one
    changes the input, the timer makes exactly one call, for the last
    value trimmed, when that is at least 2 code units long, and none
    otherwise; a further expiry makes no call. *)
Theorem X13_debounce_one_call_for_last_value
        (s : SearchBar.State) (vs : list jsstring) (v : jsstring) :
  JS.eqb v (SearchBar.query
              (fst (SearchBar.run (map SearchBar.InputChange vs) s)))
  = false ->
  snd (SearchBar.run
         (map SearchBar.InputChange vs ++
          [SearchBar.InputChange v; SearchBar.TimerFires;
           SearchBar.TimerFires]) s)
  = if 2 <=? length (trim v)
    then [SearchBar.Autocomplete (trim v) 8]
    else [].
Proof.
  intros Hv. rewrite Nat.leb_antisym.
  rewrite SearchBarMore.run_app. simpl snd.
  rewrite SearchBarMore.run_typing_silent. simpl app.
  set (s1 := fst (SearchBar.run (map SearchBar.InputChange vs) s)) in *.
  simpl. unfold SearchBar.setQuery. rewrite Hv.
  unfold SearchBar.queryEffect, SearchBar.timerFires. simpl.
  destruct (length (trim v) <? 2); reflexivity.
Qed.

Lemma X13_debounce_witness :
  snd (SearchBar.run
         (map SearchBar.InputChange [lit "c"; lit "co"; lit "cov"] ++
          [SearchBar.InputChange (lit "covid "); SearchBar.TimerFires;
           SearchBar.TimerFires]) (SearchBar.mount []))
  = [SearchBar.Autocomplete (lit "covid") 8].
Proof.
  rewrite X13_debounce_one_call_for_last_value.
  - vm_compute. reflexivity.
  - vm_compute. reflexivity.
Defined.

(** X14.  Choosing a suggestion that differs from the input and is long
    enough hides the panel and hands the suggestion to [onSearch], but
    also arms the debounce timer for it: the timer then asks for the
    suggestions of the chosen text, and their arrival shows the panel
    again. *)
Theorem X14_suggestion_click_rearms
        (s : SearchBar.State) (sug : jsstring) (results : list jsstring) :
  JS.eqb sug (SearchBar.query s) = false ->
  2 <= length (trim sug) ->
  let r1 := SearchBar.step (SearchBar.SuggestionClick sug) s in
  let r2 := SearchBar.step SearchBar.TimerFires (fst r1) in
  let s3 := fst (SearchBar.step
                   (SearchBar.Response (length (SearchBar.inflight s))
                                       (SearchBar.Resolved results))
                   (fst r2)) in
  (SearchBar.query (fst r1) = sug /\
   SearchBar.showSuggestions (fst r1) = false /\
   snd r1 = [SearchBar.OnSearch sug]) /\
  snd r2 = [SearchBar.Autocomplete (trim sug) 8] /\
  (SearchBar.suggestions s3 = results /\
   SearchBar.showSuggestions s3 = true /\
   SearchBar.inflight s3 = SearchBar.inflight s).
Proof.
  intros Hq Hl. simpl. unfold SearchBar.setQuery. simpl. rewrite Hq.
  unfold SearchBar.queryEffect. simpl.
  replace (length (trim sug) <? 2) with false
    by (symmetry; apply Nat.ltb_ge; exact Hl).
  unfold SearchBar.timerFires. simpl. unfold SearchBar.settle. simpl.
  rewrite nth_error_app2 by lia. rewrite Nat.sub_diag. simpl.
  repeat split.
  generalize (SearchBar.inflight s). intros l.
  induction l as [|x l IH]; simpl; [reflexivity | rewrite IH; reflexivity].
Qed.

Lemma X14_suggestion_click_witness :
  let s := fst (SearchBar.run
                  [SearchBar.InputChange (lit "co"); SearchBar.TimerFires;
                   SearchBar.Response 0 (SearchBar.Resolved [lit "corona"])]
                  (SearchBar.mount [])) in
  let r1 := SearchBar.step (SearchBar.SuggestionClick (lit "corona")) s in
  let r2 := SearchBar.step SearchBar.TimerFires (fst r1) in
  SearchBar.showSuggestions s = true /\
  SearchBar.showSuggestions (fst r1) = false /\
  snd r2 = [SearchBar.Autocomplete (lit "corona") 8].
Proof.
  intros s r1 r2.
  assert (Hq : JS.eqb (lit "corona") (SearchBar.query s) = false)
    by (vm_compute; reflexivity).
  assert (Hl : 2 <= length (trim (lit "corona"))) by (vm_compute; lia).
  destruct (X14_suggestion_click_rearms s (lit "corona") [] Hq Hl)
    as [[_ [H1 _]] [H2 _]].
  split; [vm_compute; reflexivity|]. split; [exact H1|].
  unfold r2, r1. rewrite H2. vm_compute. reflexivity.
Defined.

(** X15.  The loading mark can be left on with nothing to wait for: when
    a long-enough input is shortened below 2 before its timer expires,
    [isLoadingSuggestions] stays true although no timer is armed and no
    call is in flight, and no event other than a new input turns it
    off or makes a call. *)
Theorem X15_loading_mark_left_on
        (s : SearchBar.State) (v w : jsstring) (es : list SearchBar.Event) :
  SearchBar.inflight s = [] ->
  JS.eqb v (SearchBar.query s) = false -> 2 <= length (trim v) ->
  JS.eqb w v = false -> length (trim w) < 2 ->
  forallb (fun e => negb (SearchBar.changesInput e)) es = true ->
  let s2 := fst (SearchBar.run
                   [SearchBar.InputChange v; SearchBar.InputChange w] s) in
  (SearchBar.isLoadingSuggestions s2 = true /\
   SearchBar.debounceTimer s2 = None /\ SearchBar.inflight s2 = []) /\
  SearchBar.isLoadingSuggestions (fst (SearchBar.run es s2)) = true /\
  forallb (fun a => match a with
                    | SearchBar.OnSearch _ => true
                    | SearchBar.Autocomplete _ _ => false
                    end) (snd (SearchBar.run es s2)) = true.
Proof.
  intros Hi Hv Hlv Hw Hlw Hes s2.
  assert (H2 : SearchBar.isLoadingSuggestions s2 = true /\
               SearchBar.debounceTimer s2 = None /\
               SearchBar.inflight s2 = []).
  { assert (E : s2 = SearchBar.setQuery w (SearchBar.setQuery v s))
      by reflexivity.
    rewrite E, (SearchBarMore.setQuery_changed_long v s Hv Hlv).
    rewrite SearchBarMore.setQuery_changed_short by assumption.
    simpl. auto. }
  split; [exact H2|]. destruct H2 as [Hl [Ht Hin]].
  destruct (SearchBarMore.quiet_run es s2 Hes Ht Hin) as [H3 H4].
  split; [congruence | exact H4].
Qed.

Lemma X15_loading_mark_witness :
  let s2 := fst (SearchBar.run
                   [SearchBar.InputChange (lit "co");
                    SearchBar.InputChange (lit "c")] (SearchBar.mount [])) in
  SearchBar.isLoadingSuggestions
    (fst (SearchBar.run [SearchBar.TimerFires; SearchBar.ClickOutside;
                         SearchBar.Submit] s2)) = true.
Proof.
  intros s2.
  apply (X15_loading_mark_left_on (SearchBar.mount []) (lit "co") (lit "c")
           [SearchBar.TimerFires; SearchBar.ClickOutside; SearchBar.Submit]);
    try (vm_compute; reflexivity); vm_compute; lia.
Defined.

(* ================================================================== *)
(** * More on the search session, the document session and the page *)
(* ================================================================== *)

Module AppMore.

Import App.

Section Invariants.

Variables SearchResult Document : Type.

Lemma handleSearch_begin_view (q : jsstring)
      (s : State SearchResult Document) :
  showDocument (fst (handleSearch_begin q s)) = showDocument s /\
  selectedDoc (fst (handleSearch_begin q s)) = selectedDoc s.
Proof.
  unfold handleSearch_begin. destruct (negb (truthy (trim q))); auto.
Qed.

Lemma handleSearch_settle_view (q : jsstring)
      (outcome : SearchResponse SearchResult + ApiError)
      (s : State SearchResult Document) :
  showDocument (fst (handleSearch_settle q outcome s)) = showDocument s /\
  selectedDoc (fst (handleSearch_settle q outcome s)) = selectedDoc s.
Proof. destruct outcome; auto. Qed.

Lemma step_ViewInSync (e : Event SearchResult Document)
      (w : World SearchResult Document) :
  ViewInSync (ui w) -> ViewInSync (ui (step e w)).
Proof.
  unfold ViewInSync. intros H. destruct e as [q|docId| |i o|i o]; simpl.
  - destruct (handleSearch_begin_view q (ui w)) as [H1 H2].
    destruct (handleSearch_begin q (ui w)) as [s out]. simpl in *.
    rewrite H1, H2. exact H.
  - exact H.
  - split; [discriminate | intros []].
  - destruct (nth_error (pending w) i) as [[q|d]|]; try exact H.
    destruct (handleSearch_settle_view q o (ui w)) as [H1 H2].
    destruct (handleSearch_settle q o (ui w)) as [s out]. simpl in *.
    rewrite H1, H2. exact H.
  - destruct (nth_error (pending w) i) as [[q|d]|]; try exact H.
    destruct o as [doc|err]; simpl; [|exact H]. split; auto.
Qed.

Lemma step_LoadingHasCause (e : Event SearchResult Document)
      (w : World SearchResult Document) :
  LoadingHasCause w -> LoadingHasCause (step e w).
Proof.
  unfold LoadingHasCause. intros H. destruct e as [q|docId| |i o|i o]; simpl.
  - unfold handleSearch_begin.
    destruct (negb (truthy (trim q))); simpl.
    + rewrite app_nil_r. exact H.
    + intros _ E. apply app_eq_nil in E as [_ E]. discriminate E.
  - intros _ E. apply app_eq_nil in E as [_ E]. discriminate E.
  - exact H.
  - destruct (nth_error (pending w) i) as [[q|d]|]; try exact H.
    pose proof (AppFacts.handleSearch_settle_loading
                  SearchResult Document q o (ui w)) as Hl.
    destruct (handleSearch_settle q o (ui w)) as [s out]. simpl in *.
    rewrite Hl. discriminate.
  - destruct (nth_error (pending w) i) as [[q|d]|]; try exact H.
    pose proof (AppFacts.handleSelectDocument_settle_loading
                  SearchResult Document o (ui w)) as Hl.
    destruct (handleSelectDocument_settle o (ui w)) as [s out]. simpl in *.
    rewrite Hl. discriminate.
Qed.

Lemma handleSearch_begin_effects (q : jsstring)
      (s : State SearchResult Document) :
  Forall WellFormedEffect
         (snd (handleSearch_begin q s)).
Proof.
  unfold handleSearch_begin. destruct (truthy (trim q)) eqn:E; simpl.
  - repeat constructor.
    + apply truthy_true. exact E.
    + apply trim_Trimmed.
  - constructor.
Qed.

Lemma step_effects (e : Event SearchResult Document)
      (w : World SearchResult Document) :
  Forall WellFormedEffect (effects w) ->
  Forall WellFormedEffect (effects (step e w)).
Proof.
  intros H. destruct e as [q|docId| |i o|i o]; simpl.
  - pose proof (handleSearch_begin_effects q (ui w)) as Hb.
    destruct (handleSearch_begin q (ui w)) as [s out]. simpl in *.
    apply Forall_app. auto.
  - apply Forall_app. split; [exact H | repeat constructor].
  - exact H.
  - destruct (nth_error (pending w) i) as [[q|d]|]; try exact H.
    destruct o as [r|err]; simpl; apply Forall_app; split;
      try exact H; repeat constructor.
  - destruct (nth_error (pending w) i) as [[q|d]|]; try exact H.
    destruct o as [r|err]; simpl; apply Forall_app; split;
      try exact H; repeat constructor.
Qed.

Lemma run_invariant (P : World SearchResult Document -> Prop) :
  (forall e w, P w -> P (step e w)) ->
  forall es w, P w -> P (run es w).
Proof.
  intros Hstep es. unfold run.
  induction es as [|e es IH]; intros w H; [exact H|].
  simpl. apply IH. apply Hstep. exact H.
Qed.

Lemma setLoading_restore (s : State SearchResult Document) :
  loading s = false -> setLoading false (setLoading true s) = s.
Proof. destruct s. simpl. intros ->. reflexivity. Qed.

End Invariants.

Lemma mapIndexed_rank (number : Type)
      (results : list (Types.SearchResult number)) :
  forall index,
    map (@SearchResults.card_rank)
        (SearchResults.mapIndexed (@SearchResults.card number) index results)
    = seq (index + 1) (length results) /\
    map (@SearchResults.card_onClick)
        (SearchResults.mapIndexed (@SearchResults.card number) index results)
    = map (@Types.doc_id number) results.
Proof.
  induction results as [|r rs IH]; intros index; [split; reflexivity|].
  simpl. destruct (IH (S index)) as [IH1 IH2]. rewrite IH1, IH2.
  split; reflexivity.
Qed.

End AppMore.

(** X16.  In every execution the two pieces of view state agree:
    [showDocument] is true exactly when a document is held, so the page
    never asks for a document view without a document, nor holds a
    document while in results mode. *)
Theorem X16_view_state_in_sync
        (SearchResult Document : Type)
        (es : list (App.Event SearchResult Document)) :
  App.ViewInSync (App.ui (App.run es App.start)).
Proof.
  apply (AppMore.run_invariant SearchResult Document
           (fun w => App.ViewInSync (App.ui w))).
  - apply AppMore.step_ViewInSync.
  - split; [discriminate | intros []].
Qed.

(** X17.  In every execution the loading flag is true only while some
    search or document load awaits its response: with nothing pending,
    it is false. *)
Theorem X17_loading_only_while_pending
        (SearchResult Document : Type)
        (es : list (App.Event SearchResult Document)) :
  App.LoadingHasCause (App.run es App.start).
Proof.
  apply (AppMore.run_invariant SearchResult Document
           (@App.LoadingHasCause SearchResult Document)).
  - apply AppMore.step_LoadingHasCause.
  - intros H. discriminate H.
Qed.

(** X18.  In every execution each search call sent to the backend asks
    for 20 results for a query that is trimmed and not empty. *)
Theorem X18_search_calls_well_formed
        (SearchResult Document : Type)
        (es : list (App.Event SearchResult Document)) :
  Forall App.WellFormedEffect
         (App.effects (App.run es App.start)).
Proof.
  apply (AppMore.run_invariant SearchResult Document
           (fun w => Forall App.WellFormedEffect
                            (App.effects w))).
  - apply AppMore.step_effects.
  - constructor.
Qed.

(** X19.  What the result panel shows around a search for a non-empty
    query, no document being open: the spinner while the response is
    awaited; after a failure, whatever its cause, the no-results message
    for the trimmed query; after a response without results, the
    no-results message for the query the backend echoes, or the trimmed
    query when it echoes none. *)
Theorem X19_result_panel_after_search
        (number : Type)
        (s : App.State (Types.SearchResult number) (Types.Document number))
        (searchQuery : jsstring) :
  truthy (trim searchQuery) = true ->
  App.showDocument s = false ->
  let s1 := fst (App.handleSearch_begin searchQuery s) in
  SearchResults.page s1 = SearchResults.ResultsPage (SearchResults.Spinner) /\
  (forall error,
      SearchResults.page
        (fst (App.handleSearch_settle searchQuery (inr error) s1))
      = SearchResults.ResultsPage
          (SearchResults.NoResults (trim searchQuery))) /\
  (forall total echoed,
      SearchResults.page
        (fst (App.handleSearch_settle searchQuery
                (inl (App.mkResponse (Some []) total echoed)) s1))
      = SearchResults.ResultsPage
          (SearchResults.NoResults
             (orElse echoed (trim searchQuery)))).
Proof.
  intros Hq Hs. unfold App.handleSearch_begin. rewrite Hq. simpl.
  unfold SearchResults.page. simpl. rewrite Hs. split; [reflexivity|].
  split.
  - intros error. unfold SearchResults.SearchResults. rewrite Hq. reflexivity.
  - intros total echoed. unfold SearchResults.SearchResults, orElse.
    destruct echoed as [e|]; simpl.
    + destruct (truthy e) eqn:E; simpl; [rewrite E | rewrite Hq]; reflexivity.
    + rewrite Hq. reflexivity.
Qed.

Lemma X19_failed_search_witness :
  SearchResults.page
    (fst (App.handleSearch_settle (lit " covid ")
            (inr (App.mkError (Some 503%Z) None))
            (fst (App.handleSearch_begin (lit " covid ")
                                         (@App.initial (Types.SearchResult Z) (Types.Document Z))))))
  = SearchResults.ResultsPage (SearchResults.NoResults (lit "covid")).
Proof.
  assert (Hq : truthy (trim (lit " covid ")) = true) by reflexivity.
  rewrite (proj1 (proj2 (X19_result_panel_after_search
                           Z (@App.initial (Types.SearchResult Z) (Types.Document Z)) (lit " covid ")
                           Hq eq_refl))).
  vm_compute. reflexivity.
Defined.

(** X20.  A search made while a document is open never leaves the
    document page, neither when it starts nor when it settles: the
    document stays on the page, whatever happens to the result list
    underneath. *)
Theorem X20_search_keeps_document_page
        (number : Type)
        (s : App.State (Types.SearchResult number) (Types.Document number))
        (doc : Types.Document number) (searchQuery : jsstring)
        (outcome : App.SearchResponse (Types.SearchResult number)
                   + App.ApiError) :
  App.showDocument s = true -> App.selectedDoc s = Some doc ->
  let s1 := fst (App.handleSearch_begin searchQuery s) in
  let s2 := fst (App.handleSearch_settle searchQuery outcome s1) in
  SearchResults.page s1 = SearchResults.DocumentPage (DocumentViewer doc) /\
  SearchResults.page s2 = SearchResults.DocumentPage (DocumentViewer doc).
Proof.
  intros Hs Hd s1 s2.
  destruct (AppMore.handleSearch_begin_view _ _ searchQuery s) as [H1 H2].
  destruct (AppMore.handleSearch_settle_view _ _ searchQuery outcome s1)
    as [H3 H4].
  fold s1 in H1, H2. fold s2 in H3, H4.
  unfold SearchResults.page.
  rewrite H3, H4, H1, H2, Hs, Hd. split; reflexivity.
Qed.

Lemma X20_search_under_document_witness :
  let doc := Types.mkDocument (lit "p1") (Types.mkMetadata None None None None)
                              None None (Some (lit "body"))
                              (@None (list (Types.Reference Z))) in
  let s := fst (App.handleSelectDocument_settle (inl doc)
                  (fst (App.handleSelectDocument_begin (lit "p1")
                          (@App.initial (Types.SearchResult Z) _)))) in
  SearchResults.page
    (fst (App.handleSearch_settle (lit "covid")
            (inr (App.mkError None None))
            (fst (App.handleSearch_begin (lit "covid") s))))
  = SearchResults.DocumentPage (DocumentViewer doc).
Proof.
  intros doc s.
  apply (X20_search_keeps_document_page Z s doc (lit "covid")
           (inr (App.mkError None None))); reflexivity.
Defined.

(** X21.  A document load that fails, nothing else being loaded, puts
    the state back exactly as it was before the load and raises one
    alert with the fixed load-failure text. *)
Theorem X21_failed_document_load_restores
        (SearchResult Document : Type)
        (s : App.State SearchResult Document)
        (docId : jsstring) (error : App.ApiError) :
  App.loading s = false ->
  App.handleSelectDocument_settle (inr error)
    (fst (App.handleSelectDocument_begin docId s))
  = (s, [App.Alert App.loadFailedMessage]).
Proof.
  intros Hl. simpl. rewrite AppMore.setLoading_restore by exact Hl.
  reflexivity.
Qed.

Lemma X21_failed_load_witness :
  App.handleSelectDocument_settle (inr (App.mkError (Some 404%Z) None))
    (fst (App.handleSelectDocument_begin (lit "p1")
            (@App.initial jsstring jsstring)))
  = (@App.initial jsstring jsstring,
     [App.Alert App.loadFailedMessage]).
Proof.
  apply X21_failed_document_load_restores. reflexivity.
Defined.

(** X22.  With results to show, the panel lists one card per result in
    the order received, ranked 1, 2, ... in that order, each card
    opening the document of its own result; the count in the header is
    the total the backend reported, whatever the number of cards. *)
Theorem X22_result_cards_in_rank_order
        (number : Type) (results : list (Types.SearchResult number))
        (totalResults : Z) (query : jsstring) :
  results <> [] -> truthy query = true ->
  exists cards,
    SearchResults.SearchResults results false totalResults query
    = SearchResults.ResultList totalResults
        (negb (totalResults =? 1)%Z) query cards /\
    map (@SearchResults.card_rank) cards = seq 1 (length results) /\
    map (@SearchResults.card_onClick) cards
    = map (@Types.doc_id number) results.
Proof.
  intros Hr Hq.
  exists (SearchResults.mapIndexed (@SearchResults.card number) 0 results).
  split.
  - unfold SearchResults.SearchResults. rewrite Hq.
    destruct results; [congruence | reflexivity].
  - apply (AppMore.mapIndexed_rank number results 0).
Qed.

Lemma X22_result_cards_witness :
  let r (id : string) :=
    Types.mkSearchResult (lit id) 0%Z None None None None None in
  exists cards,
    SearchResults.SearchResults [r "b"%string; r "a"%string; r "c"%string]
                                false 57%Z (lit "covid")
    = SearchResults.ResultList 57%Z true (lit "covid") cards /\
    map (@SearchResults.card_onClick) cards = [lit "b"; lit "a"; lit "c"].
Proof.
  intros r.
  destruct (X22_result_cards_in_rank_order Z
              [r "b"%string; r "a"%string; r "c"%string] 57%Z (lit "covid"))
    as [cards [H1 [_ H3]]]; [discriminate | reflexivity |].
  exists cards. split; [exact H1 | exact H3].
Defined.

(** X23.  The search bar trims the input before it hands it on and the
    search handler trims what it is given: the second trim changes
    nothing, so a submitted input and its trimmed form start the same
    search. *)
Theorem X23_submit_trims_once
        (SearchResult Document : Type)
        (bar : SearchBar.State) (s : App.State SearchResult Document) :
  snd (SearchBar.step SearchBar.Submit bar)
  = [SearchBar.OnSearch (trim (SearchBar.query bar))] /\
  App.handleSearch_begin (trim (SearchBar.query bar)) s
  = App.handleSearch_begin (SearchBar.query bar) s.
Proof.
  split; [reflexivity|].
  unfold App.handleSearch_begin.
  rewrite (trim_Trimmed (SearchBar.query bar)). reflexivity.
Qed.
